(** * igptai-node: the retrying request executor ([HttpClient]), the SSE
      stream decoder ([StreamParser]) and the client that composes them
      ([IGPT]), embedded from [src/HttpClient.js] and [src/StreamParser.js].

    Conventions of the embedding.
    - JavaScript numbers that the code uses as counters and millisecond
      amounts ([retries], [backoffBase], [backoffFactor], [timeout],
      [response.status]) are integers, modelled in [Z].
    - A JavaScript string is a sequence of UTF-16 code units ([jsstring]).
    - The platform ([fetch], timers, the byte reader, [TextDecoder],
      [JSON.parse]) is an explicit environment: what the code can observe of
      it is data handed to the embedded functions.
    - Effects are recorded in order in a trace of events. *)

From Stdlib Require Import ZArith NArith List String Ascii Bool Lia.
From Stdlib Require Import Strings.Byte.
Import ListNotations.

Local Open Scope Z_scope.

(** The uniform failure value [{ error: <kind> }]. *)
Record ErrorObject := { error : string }.

(* ===================================================================== *)
(** ** JavaScript strings *)
(* ===================================================================== *)

Module Js.

(** One UTF-16 code unit. *)
Definition code_unit := N.
Definition jsstring := list code_unit.

(** An ASCII literal as a JavaScript string. *)
Definition str (s : string) : jsstring :=
  List.map N_of_ascii (list_ascii_of_string s).

(** The bytes of an ASCII literal. *)
Definition bytes (s : string) : list byte := list_byte_of_string s.

(** The line feed and the double quote, to write literals with. *)
Definition NL : string := String (Ascii.ascii_of_nat 10) EmptyString.
Definition DQ : string := String (Ascii.ascii_of_nat 34) EmptyString.

(** [a || b] where [a] is a number or [undefined]: [0] and [undefined]
    are falsy (NaN, the other falsy number, is not an integer). *)
Definition or_default (a : option Z) (b : Z) : Z :=
  match a with
  | Some v => if v =? 0 then b else v
  | None => b
  end.

(** A number or [undefined] is falsy. *)
Definition falsy (a : option Z) : bool :=
  match a with
  | Some v => v =? 0
  | None => true
  end.

(** *** The string methods the decoder uses *)

Local Open Scope N_scope.

(** WhiteSpace and LineTerminator code points of ECMAScript, the ones
    [String.prototype.trim] removes. *)
Definition isWhiteSpace (c : code_unit) : bool :=
  (c =? 0x9) || (c =? 0xA) || (c =? 0xB) || (c =? 0xC) || (c =? 0xD)
  || (c =? 0x20) || (c =? 0xA0) || (c =? 0x1680)
  || ((0x2000 <=? c) && (c <=? 0x200A))
  || (c =? 0x2028) || (c =? 0x2029) || (c =? 0x202F) || (c =? 0x205F)
  || (c =? 0x3000) || (c =? 0xFEFF).

Fixpoint trimStart (s : jsstring) : jsstring :=
  match s with
  | c :: s' => if isWhiteSpace c then trimStart s' else s
  | [] => []
  end.

Definition trimEnd (s : jsstring) : jsstring := rev (trimStart (rev s)).

Definition trim (s : jsstring) : jsstring := trimEnd (trimStart s).

Fixpoint startsWith (s searchString : jsstring) : bool :=
  match searchString, s with
  | [], _ => true
  | p :: ps, c :: cs => (c =? p) && startsWith cs ps
  | _ :: _, [] => false
  end.

(** [s.slice(start)] for a non-negative [start]. *)
Definition slice (s : jsstring) (start : nat) : jsstring := skipn start s.

(** [s.split(sep)] for a separator of one code unit: the pieces between
    the separators, always at least one piece. *)
Fixpoint split (s : jsstring) (sep : code_unit) : list jsstring :=
  match s with
  | [] => [[]]
  | c :: s' =>
      if c =? sep then [] :: split s' sep
      else match split s' sep with
           | piece :: pieces => (c :: piece) :: pieces
           | [] => [[c]]
           end
  end.

(** [lines.pop()]: the last element ([undefined] on an empty array) and
    the array without it. *)
Definition pop {A : Type} (l : list A) : option A * list A :=
  match rev l with
  | x :: r => (Some x, rev r)
  | [] => (None, [])
  end.

(** [x || ""] for a string or [undefined] [x]. *)
Definition or_empty (x : option jsstring) : jsstring :=
  match x with
  | Some s => s
  | None => []
  end.

(** [!s] for a string: only the empty string is falsy. *)
Definition isEmpty (s : jsstring) : bool :=
  match s with
  | [] => true
  | _ :: _ => false
  end.

(** The line feed the decoder splits on. *)
Definition LF : code_unit := 0xA.

Local Close Scope N_scope.

End Js.

(* ===================================================================== *)
(** ** HttpClient.js *)
(* ===================================================================== *)

Module HttpClient.

(** What the executor reads of a fetch [Response]: its status; the body
    is carried along for the orchestrator. *)
Inductive Body :=
| BodyText (text : Js.jsstring)   (* the body arrives and is this text *)
| BodyUnreadable.                 (* reading the body rejects *)

Record Response := { status : Z; body : Body }.

(** How [await fetch(...)] settles in one attempt, as the [try]/[catch]
    sees it: a response, or a rejection of which the code reads
    [err?.name] and, at that moment, [controller.signal.aborted]. *)
Inductive Settled :=
| Fulfilled (response : Response)
| Rejected (name : string) (signal_aborted : bool).

(** The deadline armed by [setTimeout(() => controller.abort(), reqTimeout)]
    fired: the attempt's own controller is aborted and fetch rejects with
    an AbortError. *)
Definition DeadlineFires : Settled := Rejected "AbortError" true.

(** An AbortError that the attempt's own controller did not raise: fetch
    rejects with an AbortError while [controller.signal.aborted] is still
    false. This is what CASE A of the [catch] tests for. It can only come
    from the platform: the signal handed to fetch is always the attempt's
    own (see [HttpClientSignals.fetch_init]), so no signal of the caller
    produces it. *)
Definition ForeignAbort : Settled := Rejected "AbortError" false.

(** A transport failure (DNS, TLS, connection reset): fetch rejects with
    a TypeError. *)
Definition TransportFails : Settled := Rejected "TypeError" false.

(** The transport: how the fetch of each attempt settles. *)
Definition World := Z -> Settled.

(** The fields set by the constructor. *)
Record t := {
  _retries : Z;
  _backoffBase : Z;
  _backoffFactor : Z;
  _timeout : Z
}.

Definition constructor (retries backoffBase backoffFactor timeout : Z) : t :=
  {| _retries := retries;
     _backoffBase := backoffBase;
     _backoffFactor := backoffFactor;
     _timeout := timeout |}.

(** The [options] argument of [request]: only [timeout] is read by the
    executor; the rest is passed to fetch, where a [signal] among them is
    replaced by the signal of the attempt's own controller. *)
Record RequestOptions := { timeout : option Z }.

(** Effects of [request], in program order. *)
Inductive Event :=
| SetTimeout (ms : Z)      (* arm the deadline of an attempt *)
| Fetch (attempt : Z)      (* issue the request *)
| ClearTimeout             (* the [finally] block *)
| Sleep (ms : Z).          (* the backoff wait *)

(** What [request] returns. The loop falling through returns
    [undefined]. *)
Inductive Returned :=
| RetResponse (response : Response)
| RetError (e : ErrorObject)
| RetUndefined.

Definition isRetryableStatus (response : Response) : bool :=
  ((500 <=? status response) && (status response <? 600))
  || (status response =? 429).

(** How the [try]/[catch] of one iteration ends. *)
Inductive Verdict :=
| Return (r : Returned)
| FallThrough.

Definition reqTimeout (this : t) (options : RequestOptions) : Z :=
  Js.or_default (timeout options) (_timeout this).

Section Request.

Variable this : t.
Variable options : RequestOptions.
Variable world : World.

(** The [try]/[catch] of one iteration: it returns from [request], or it
    falls through to the backoff wait below it. *)
Definition try_catch (attempt : Z) : Verdict :=
  match world attempt with
  | Fulfilled response =>
      if negb (isRetryableStatus response) || (attempt =? _retries this)
      then Return (RetResponse response)
      else FallThrough
  | Rejected name signal_aborted =>
      let isAbortError := String.eqb name "AbortError" in
      let isOurTimeout := signal_aborted in
      if isAbortError && negb isOurTimeout
      then Return (RetError {| error := "request_aborted" |})
      else if attempt =? _retries this
      then
        if isAbortError && isOurTimeout
        then Return (RetError {| error := "timeout" |})
        else Return (RetError {| error := "network_error" |})
      else FallThrough
  end.

(** The [for] loop from [attempt] on. [fuel] bounds the number of
    iterations; [request] below supplies enough of it. The [finally]
    block clears the timer on both ways out of the [try]. *)
Fixpoint loop (fuel : nat) (attempt : Z) : option (Returned * list Event) :=
  if attempt <=? _retries this then
    match fuel with
    | O => None
    | S fuel' =>
        let started := [SetTimeout (reqTimeout this options); Fetch attempt] in
        match try_catch attempt with
        | Return r => Some (r, started ++ [ClearTimeout])
        | FallThrough =>
            let delay := _backoffBase this * _backoffFactor this ^ attempt in
            match loop fuel' (attempt + 1) with
            | Some (r, tr) =>
                Some (r, started ++ [ClearTimeout; Sleep delay] ++ tr)
            | None => None
            end
        end
    end
  else Some (RetUndefined, []).

Definition request : option (Returned * list Event) :=
  loop (Z.to_nat (_retries this + 1)) 0.

End Request.

(** *** Reading a trace *)

(** For each attempt, in order: its index and the backoff waits that
    happened since the attempt before it (or since the start). *)
Fixpoint waits_from (pending : list Z) (tr : list Event) : list (Z * list Z) :=
  match tr with
  | [] => []
  | Sleep d :: tr' => waits_from (pending ++ [d]) tr'
  | Fetch k :: tr' => (k, pending) :: waits_from [] tr'
  | _ :: tr' => waits_from pending tr'
  end.

Definition waits (tr : list Event) : list (Z * list Z) := waits_from [] tr.

(** The attempts issued, in order. *)
Definition attempts (tr : list Event) : list Z := List.map fst (waits tr).

(** The transport always completes with a 5xx or a 429. *)
Definition always_retryable (world : World) : Prop :=
  forall k, exists response,
    world k = Fulfilled response /\ isRetryableStatus response = true.

End HttpClient.


(* ===================================================================== *)
(** ** StreamParser.js *)
(* ===================================================================== *)

Module StreamParser.

Import Js.

(** The platform services the decoder calls.
    - [JSON_parse s] is [JSON.parse(s)]; [None] stands for the SyntaxError
      it throws.
    - [new TextDecoder()] with [decode(value, { stream: true })] is a
      machine that consumes the bytes one at a time and keeps its state
      (pending bytes of a multi-byte sequence, the byte-order-mark flag)
      from one call to the next: [decoder_init] is the state after
      [new TextDecoder()], [decoder_handler] consumes one byte and emits
      the code units it completes. *)
Class Platform := {
  JsonValue : Type;
  JSON_parse : jsstring -> option JsonValue;
  decoder_state : Type;
  decoder_init : decoder_state;
  decoder_handler : decoder_state -> byte -> decoder_state * jsstring
}.

Section Decoder.

Context {P : Platform}.

(** [decoder.decode(value, { stream: true })]. *)
Fixpoint decode (d : decoder_state) (value : list byte) : decoder_state * jsstring :=
  match value with
  | [] => (d, [])
  | b :: value' =>
      let (d1, out1) := decoder_handler d b in
      let (d2, out2) := decode d1 value' in
      (d2, out1 ++ out2)
  end.

(** The byte source behind [response.body.getReader()]: the chunks it
    still has to deliver and how it ends after them. [releaseLock_calls]
    counts the calls of [releaseLock()]. *)
Inductive Ending :=
| EndOfData      (* [read()] resolves with [done: true] *)
| ReadFails.     (* [read()] rejects *)

Record Reader := {
  chunks : list (list byte);
  ending : Ending;
  releaseLock_calls : nat
}.

Definition releaseLock (r : Reader) : Reader :=
  {| chunks := chunks r;
     ending := ending r;
     releaseLock_calls := S (releaseLock_calls r) |}.

(** What the generator yields: a decoded frame, or the error object. *)
Inductive Yielded :=
| Frame (v : JsonValue)
| Failure (e : ErrorObject).

Inductive IteratorResult :=
| Value (y : Yielded)
| Done.

(** Where the body of the async generator is suspended. *)
Inductive Control :=
| Start                                (* created, body not entered *)
| AtYieldFrame (rest : list jsstring)  (* at [yield JSON.parse(jsonStr)];
                                          [rest]: the lines the [for] loop
                                          has still to visit *)
| AtYieldError                         (* at [yield { error: ... }] *)
| Completed.

(** A parser together with the one iteration that runs on it: the fields
    [_reader] and [_buffer], the local [decoder] and the suspension
    point. *)
Record t := {
  _reader : Reader;
  _buffer : jsstring;
  decoder : decoder_state;
  control : Control
}.

(** [new StreamParser(response)] followed by [[Symbol.asyncIterator]()]. *)
Definition constructor (body : list (list byte)) (e : Ending) : t :=
  {| _reader := {| chunks := body; ending := e; releaseLock_calls := 0 |};
     _buffer := [];
     decoder := decoder_init;
     control := Start |}.

(** The body of the [for] loop for one line, up to the [yield]: the value
    to yield, or [None] when the line is passed over ([continue], or the
    empty [catch]). *)
Definition frame (raw : jsstring) : option JsonValue :=
  let line := trim raw in
  if negb (startsWith line (str "data:")) then None
  else
    let jsonStr := trim (slice line 5) in
    if isEmpty jsonStr then None
    else JSON_parse jsonStr.

(** [for (const raw of lines)] up to its next [yield]: the value and the
    lines left, or [None] when the loop ends without yielding. *)
Fixpoint for_lines (lines : list jsstring) : option (JsonValue * list jsstring) :=
  match lines with
  | [] => None
  | raw :: rest =>
      match frame raw with
      | Some v => Some (v, rest)
      | None => for_lines rest
      end
  end.

(** The [finally] block. *)
Definition finally (r : Reader) (buffer : jsstring) (d : decoder_state) : t :=
  {| _reader := releaseLock r;
     _buffer := buffer;
     decoder := d;
     control := Completed |}.

(** [while (true)] from its top, up to the next [yield] or to the end of
    the body. Each round takes the next chunk off the reader. *)
Fixpoint while_true (cs : list (list byte)) (e : Ending) (calls : nat)
    (buffer : jsstring) (d : decoder_state) : t * IteratorResult :=
  match cs with
  | [] =>
      let r := {| chunks := []; ending := e; releaseLock_calls := calls |} in
      match e with
      | ReadFails =>
          (* [read()] throws: the inner [catch] yields the error value *)
          ({| _reader := r; _buffer := buffer; decoder := d;
              control := AtYieldError |},
           Value (Failure {| error := "network_error" |}))
      | EndOfData =>
          (* [if (done) break], then the [finally] block *)
          (finally r buffer d, Done)
      end
  | value :: cs' =>
      (* [read()] gives [{ done: false, value }] *)
      let (d', text) := decode d value in
      let lines := split (buffer ++ text) LF in
      let (last, lines') := pop lines in
      let buffer' := or_empty last in
      match for_lines lines' with
      | Some (v, rest) =>
          ({| _reader := {| chunks := cs'; ending := e;
                            releaseLock_calls := calls |};
              _buffer := buffer';
              decoder := d';
              control := AtYieldFrame rest |},
           Value (Frame v))
      | None => while_true cs' e calls buffer' d'
      end
  end.

Definition resume_while (g : t) : t * IteratorResult :=
  while_true (chunks (_reader g)) (ending (_reader g))
             (releaseLock_calls (_reader g)) (_buffer g) (decoder g).

(** [generator.next()]. *)
Definition next (g : t) : t * IteratorResult :=
  match control g with
  | Start => resume_while g
  | AtYieldFrame rest =>
      match for_lines rest with
      | Some (v, rest') =>
          ({| _reader := _reader g; _buffer := _buffer g;
              decoder := decoder g; control := AtYieldFrame rest' |},
           Value (Frame v))
      | None => resume_while g
      end
  | AtYieldError => (finally (_reader g) (_buffer g) (decoder g), Done)
  | Completed => (g, Done)
  end.

(** [generator.return()]: at a [yield] inside the [try] it runs the
    [finally] block; before the body was entered, or after it ended, it
    runs nothing. *)
Definition return_ (g : t) : t :=
  match control g with
  | Start =>
      {| _reader := _reader g; _buffer := _buffer g;
         decoder := decoder g; control := Completed |}
  | AtYieldFrame _ | AtYieldError => finally (_reader g) (_buffer g) (decoder g)
  | Completed => g
  end.

(** [for await (const y of parser) { ... }] run to the end, collecting the
    values; [fuel] bounds the number of [next()] calls. *)
Fixpoint for_await (fuel : nat) (g : t) : option (list Yielded * t) :=
  match fuel with
  | O => None
  | S fuel' =>
      match next g with
      | (g', Done) => Some ([], g')
      | (g', Value y) =>
          match for_await fuel' g' with
          | Some (ys, g'') => Some (y :: ys, g'')
          | None => None
          end
      end
  end.

(** [for await (const y of parser) { ...; if (<value number n>) break }]:
    the consumer leaves the loop in the body that handles the value of
    index [n]; leaving calls [return()]. *)
Fixpoint for_await_break (n : nat) (g : t) : list Yielded * t :=
  match next g with
  | (g', Done) => ([], g')
  | (g', Value y) =>
      match n with
      | O => ([y], return_ g')
      | S n' =>
          let (ys, g'') := for_await_break n' g' in
          (y :: ys, g'')
      end
  end.

(** *** The decoder described on the whole text *)

(** The code units the decoder produces for the whole byte stream. *)
Definition text_of (bytes : list byte) : jsstring := snd (decode decoder_init bytes).

(** The lines of a text that are closed by a line feed. *)
Definition complete_lines (text : jsstring) : list jsstring := snd (pop (split text LF)).

(** The text after the last line feed. *)
Definition partial_line (text : jsstring) : jsstring := or_empty (fst (pop (split text LF))).

(** One value for each line that carries a frame, in order. *)
Fixpoint frames (lines : list jsstring) : list Yielded :=
  match lines with
  | [] => []
  | raw :: rest =>
      match frame raw with
      | Some v => Frame v :: frames rest
      | None => frames rest
      end
  end.

(** The last value of the sequence for each way the source ends. *)
Definition ending_values (e : Ending) : list Yielded :=
  match e with
  | EndOfData => []
  | ReadFails => [Failure {| error := "network_error" |}]
  end.

(** The values of the whole sequence, read off the whole byte stream. *)
Definition values_of (bytes : list byte) (e : Ending) : list Yielded :=
  frames (complete_lines (text_of bytes)) ++ ending_values e.

(** The values an iteration has still to yield. *)
Definition tail_values (g : t) : list Yielded :=
  frames (complete_lines
            (_buffer g
             ++ snd (decode (decoder g) (List.concat (chunks (_reader g))))))
  ++ ending_values (ending (_reader g)).

Definition remaining (g : t) : list Yielded :=
  match control g with
  | Start => tail_values g
  | AtYieldFrame rest => frames rest ++ tail_values g
  | AtYieldError | Completed => []
  end.

(** The partial line that is left once the source is exhausted. *)
Definition eventual_buffer (g : t) : jsstring :=
  partial_line
    (_buffer g ++ snd (decode (decoder g) (List.concat (chunks (_reader g))))).

(** The states of an iteration: the buffer never holds a complete line;
    [releaseLock()] has been called once when the body has ended and not
    before; the error value is yielded when the source has nothing left. *)
Definition consistent (g : t) : Prop :=
  complete_lines (_buffer g) = []
  /\ releaseLock_calls (_reader g)
     = match control g with
       | Completed => 1%nat
       | _ => 0%nat
       end
  /\ (control g = AtYieldError -> chunks (_reader g) = []).

(** The stream [data: {"a":1}\n\n] and its payload [{"a":1}]. *)
Definition a1_payload : string := "{" ++ DQ ++ "a" ++ DQ ++ ":1}".
Definition a1_stream : string := "data: " ++ a1_payload ++ NL ++ NL.

(** The body is suspended at one of its [yield]s. *)
Definition suspended (g : t) : Prop :=
  control g <> Start /\ control g <> Completed.

End Decoder.

End StreamParser.


(* ===================================================================== *)
(** ** The client class [IGPT] *)
(* ===================================================================== *)

Module IGPT.

Import Js.

Definition DEFAULT_TIMEOUT_MS : Z := 60000.
Definition DEFAULT_STREAM_TIMEOUT_MS : Z := 10 * 60000.

(** The numeric members of [IGPTLoginOptions]; an absent member is
    [undefined]. *)
Record IGPTLoginOptions := {
  retries : option Z;
  backoffBase : option Z;
  backoffFactor : option Z
}.

Record t := {
  _http : HttpClient.t;
  _timeout : Z;
  _streamTimeout : Z
}.

Definition constructor (options : IGPTLoginOptions) : t :=
  {| _http :=
       HttpClient.constructor
         (or_default (retries options) 3)
         (or_default (backoffBase options) 100)
         (or_default (backoffFactor options) 2)
         DEFAULT_TIMEOUT_MS;
     _timeout := DEFAULT_TIMEOUT_MS;
     _streamTimeout := DEFAULT_STREAM_TIMEOUT_MS |}.

(** Of the request body the orchestrator reads [body?.stream === true]. *)
Record RequestBody := { stream : bool }.

Definition _execute (this : t) (body : RequestBody) (world : HttpClient.World)
  : option (HttpClient.Returned * list HttpClient.Event) :=
  let isStream := stream body in
  HttpClient.request (_http this)
    {| HttpClient.timeout :=
         Some (if isStream then _streamTimeout this else _timeout this) |}
    world.

Section PostJson.

Context {P : StreamParser.Platform}.

(** [await res.json()]: the body is read and parsed; [None] when either
    step throws. *)
Definition json (res : HttpClient.Response) : option StreamParser.JsonValue :=
  match HttpClient.body res with
  | HttpClient.BodyText text => StreamParser.JSON_parse text
  | HttpClient.BodyUnreadable => None
  end.

(** What [_postJson] resolves to. *)
Inductive Resolved :=
| Parsed (v : StreamParser.JsonValue)
| Failed (e : ErrorObject).

(** Effects of [_postJson]: those of the executor, then [ResJson] when the
    [try] block that calls [res.json()] is entered. *)
Inductive Event :=
| Http (e : HttpClient.Event)
| ResJson.

Definition _postJson (this : t) (body : RequestBody) (world : HttpClient.World)
  : option (Resolved * list Event) :=
  match _execute this body world with
  | None => None
  | Some (res, tr) =>
      let parse (parsed : option StreamParser.JsonValue) :=
        match parsed with
        | Some v => Parsed v
        | None => Failed {| error := "invalid_json_response" |}
        end in
      match res with
      | HttpClient.RetError e =>
          (* [res?.error] is truthy unless it is the empty string *)
          if String.eqb (error e) ""
          then Some (parse None, List.map Http tr ++ [ResJson])
          else Some (Failed e, List.map Http tr)
      | HttpClient.RetResponse response =>
          Some (parse (json response), List.map Http tr ++ [ResJson])
      | HttpClient.RetUndefined =>
          (* [res.json()] on [undefined] throws inside the [try] *)
          Some (parse None, List.map Http tr ++ [ResJson])
      end
  end.

End PostJson.

End IGPT.


(* ===================================================================== *)
(** ** A concrete platform *)
(* ===================================================================== *)

(** A platform to run the decoder and the orchestrator on concrete
    streams: a reader of the JSON texts made of objects, arrays, strings
    without escapes, integers, [true], [false] and [null], and a decoder
    for 7-bit bytes, on which UTF-8 decoding maps each byte to the code
    unit of the same value. The properties below are proved for every
    platform; this one supplies their concrete instances. *)
Module Sample.

Import Js.

Local Open Scope N_scope.

#[warnings="-register-all"]
Inductive Json :=
| JNull
| JBool (b : bool)
| JNumber (n : Z)
| JString (s : jsstring)
| JArray (items : list Json)
| JObject (members : list (jsstring * Json)).

Definition isJsonSpace (c : code_unit) : bool :=
  (c =? 0x20) || (c =? 0x9) || (c =? 0xA) || (c =? 0xD).

Fixpoint skip_space (s : jsstring) : jsstring :=
  match s with
  | c :: s' => if isJsonSpace c then skip_space s' else s
  | [] => []
  end.

Definition isDigit (c : code_unit) : bool := (48 <=? c) && (c <=? 57).

Fixpoint digits (acc : Z) (s : jsstring) : Z * jsstring :=
  match s with
  | c :: s' =>
      if isDigit c then digits (10 * acc + Z.of_N (c - 48))%Z s' else (acc, s)
  | [] => (acc, [])
  end.

(** The characters of a string up to its closing quote. *)
Fixpoint chars (s : jsstring) : option (jsstring * jsstring) :=
  match s with
  | [] => None
  | c :: s' =>
      if c =? 34 then Some ([], s')
      else if (c =? 92) || (c <? 32) then None
      else match chars s' with
           | Some (w, r) => Some (c :: w, r)
           | None => None
           end
  end.

Fixpoint value (fuel : nat) (s : jsstring) : option (Json * jsstring) :=
  match fuel with
  | O => None
  | S fuel' =>
      let s := skip_space s in
      if startsWith s (str "null") then Some (JNull, skipn 4 s)
      else if startsWith s (str "true") then Some (JBool true, skipn 4 s)
      else if startsWith s (str "false") then Some (JBool false, skipn 5 s)
      else
        match s with
        | [] => None
        | c :: r =>
            if c =? 34 then
              match chars r with
              | Some (w, r') => Some (JString w, r')
              | None => None
              end
            else if c =? 91 then
              match skip_space r with
              | c' :: r' =>
                  if c' =? 93 then Some (JArray [], r')
                  else match elements fuel' r with
                       | Some (vs, r'') => Some (JArray vs, r'')
                       | None => None
                       end
              | [] => None
              end
            else if c =? 123 then
              match skip_space r with
              | c' :: r' =>
                  if c' =? 125 then Some (JObject [], r')
                  else match members fuel' r with
                       | Some (ms, r'') => Some (JObject ms, r'')
                       | None => None
                       end
              | [] => None
              end
            else if c =? 45 then
              match r with
              | d :: _ =>
                  if isDigit d
                  then let (n, r') := digits 0 r in Some (JNumber (- n), r')
                  else None
              | [] => None
              end
            else if isDigit c
            then let (n, r') := digits 0 s in Some (JNumber n, r')
            else None
        end
  end

with elements (fuel : nat) (s : jsstring) : option (list Json * jsstring) :=
  match fuel with
  | O => None
  | S fuel' =>
      match value fuel' s with
      | Some (v, r) =>
          match skip_space r with
          | c :: r' =>
              if c =? 44 then
                match elements fuel' r' with
                | Some (vs, r'') => Some (v :: vs, r'')
                | None => None
                end
              else if c =? 93 then Some ([v], r')
              else None
          | [] => None
          end
      | None => None
      end
  end

with members (fuel : nat) (s : jsstring)
  : option (list (jsstring * Json) * jsstring) :=
  match fuel with
  | O => None
  | S fuel' =>
      match skip_space s with
      | q :: r0 =>
          if q =? 34 then
            match chars r0 with
            | Some (key, r1) =>
                match skip_space r1 with
                | colon :: r2 =>
                    if colon =? 58 then
                      match value fuel' r2 with
                      | Some (v, r3) =>
                          match skip_space r3 with
                          | c :: r4 =>
                              if c =? 44 then
                                match members fuel' r4 with
                                | Some (ms, r5) => Some ((key, v) :: ms, r5)
                                | None => None
                                end
                              else if c =? 125 then Some ([(key, v)], r4)
                              else None
                          | [] => None
                          end
                      | None => None
                      end
                    else None
                | [] => None
                end
            | None => None
            end
          else None
      | [] => None
      end
  end.

Definition JSON_parse (s : jsstring) : option Json :=
  match value (2 * List.length s + 2) s with
  | Some (v, r) => if isEmpty (skip_space r) then Some v else None
  | None => None
  end.

Definition one_byte_handler (d : unit) (b : byte) : unit * jsstring :=
  (d, [Byte.to_N b]).

Definition platform : StreamParser.Platform :=
  {| StreamParser.JsonValue := Json;
     StreamParser.JSON_parse := JSON_parse;
     StreamParser.decoder_state := unit;
     StreamParser.decoder_init := tt;
     StreamParser.decoder_handler := one_byte_handler |}.

Local Close Scope N_scope.

(** *** Concrete executors and transports *)

(** Two retries, 100 ms doubled at each retry, one minute per attempt. *)
Definition policy : HttpClient.t := HttpClient.constructor 2 100 2 60000.

Definition no_override : HttpClient.RequestOptions :=
  {| HttpClient.timeout := None |}.

Definition respond (status : Z) (text : string) : HttpClient.Settled :=
  HttpClient.Fulfilled
    {| HttpClient.status := status; HttpClient.body := HttpClient.BodyText (str text) |}.

(** Every attempt gets a 503. *)
Definition always_503 : HttpClient.World := fun _ => respond 503 "busy".

(** A 503, then an AbortError that attempt 1 did not raise. *)
Definition foreign_abort_at_1 : HttpClient.World :=
  fun k => if k =? 1 then HttpClient.ForeignAbort else respond 503 "busy".

(** The deadline expires in every attempt. *)
Definition always_late : HttpClient.World := fun _ => HttpClient.DeadlineFires.

(** A 404 at once. *)
Definition not_found : HttpClient.World := fun _ => respond 404 "{}".

(** A 200 with the body [{"a":1}]. *)
Definition ok_a1 : HttpClient.World :=
  fun _ => respond 200 ("{" ++ DQ ++ "a" ++ DQ ++ ":1}").

(** *** Concrete streams *)

(** Two frames in a first chunk, the start of a third in a second. *)
Definition two_frames_and_a_half : list (list byte) :=
  [bytes ("data: 1" ++ NL ++ "data: 2" ++ NL); bytes "data: "].

(** A malformed frame followed by a valid one. *)
Definition bad_then_good : list (list byte) :=
  [bytes ("data: not-json" ++ NL ++ "data: 1" ++ NL)].

End Sample.


(* ===================================================================== *)
(** ** Reading more of a trace of [request] *)
(* ===================================================================== *)

Module HttpClientTrace.

Import HttpClient.

(** The timer discipline of a trace, read from left to right with
    [armed] telling whether a deadline is pending: a deadline is armed
    only when none is pending, a fetch runs only under a pending deadline,
    a deadline is cleared only when pending, a backoff wait runs only when
    none is pending, and none is pending at the end. *)
Fixpoint timers_ok (armed : bool) (tr : list Event) : bool :=
  match tr with
  | [] => negb armed
  | SetTimeout _ :: tr' => negb armed && timers_ok true tr'
  | Fetch _ :: tr' => armed && timers_ok armed tr'
  | ClearTimeout :: tr' => armed && timers_ok false tr'
  | Sleep _ :: tr' => negb armed && timers_ok armed tr'
  end.

(** An outcome after which an attempt that is not the last one is
    followed by another: a 5xx or 429 response, or a rejection other than
    an AbortError raised while the attempt's own signal is not aborted. *)
Definition transient (s : Settled) : bool :=
  match s with
  | Fulfilled response => isRetryableStatus response
  | Rejected name signal_aborted =>
      negb (String.eqb name "AbortError" && negb signal_aborted)
  end.

(** The attempts [0 .. m-1], each with the wait that precedes it: none
    before attempt 0, [backoffBase * backoffFactor ^ (k-1)] before
    attempt [k]. *)
Definition schedule (this : t) (m : nat) : list (Z * list Z) :=
  List.map
    (fun k : nat =>
       (Z.of_nat k,
        match k with
        | O => []
        | S k' => [_backoffBase this * _backoffFactor this ^ Z.of_nat k']
        end))
    (seq 0 m).

(** The error value for a rejection on the last attempt, or for a
    cancellation that the attempt did not arm on any attempt. *)
Definition error_of_rejection (name : string) (signal_aborted : bool) : ErrorObject :=
  if String.eqb name "AbortError" && negb signal_aborted
  then {| error := "request_aborted" |}
  else if String.eqb name "AbortError" && signal_aborted
       then {| error := "timeout" |}
       else {| error := "network_error" |}.

End HttpClientTrace.


(* ===================================================================== *)
(** ** Driving an iteration step by step *)
(* ===================================================================== *)

Module StreamParserRuns.

Import Js StreamParser.

(** A text made of the code units [trim] removes. *)
Definition allWhiteSpace (s : jsstring) : bool := forallb isWhiteSpace s.

Section Runs.

Context {P : Platform}.

(** The state after [n] calls of [next()]. *)
Fixpoint nexts (n : nat) (g : t) : t :=
  match n with
  | O => g
  | S n' => nexts n' (fst (next g))
  end.

End Runs.

End StreamParserRuns.


(* ===================================================================== *)
(** ** The rest of the client class [IGPT]: URLs, services, calls *)
(* ===================================================================== *)

Module IGPTService.

Import Js.

(** [a === b] on strings. *)
Fixpoint eqb (a b : jsstring) : bool :=
  match a, b with
  | [], [] => true
  | x :: a', y :: b' => (x =? y)%N && eqb a' b'
  | _, _ => false
  end.

Definition SLASH : code_unit := 47%N.

(** [s.replace(/^\/+/, "")]: the leading slashes are removed. *)
Fixpoint strip_leading_slashes (s : jsstring) : jsstring :=
  match s with
  | c :: s' => if (c =? SLASH)%N then strip_leading_slashes s' else s
  | [] => []
  end.

(** [s.replace(/\/+$/, "")]: the trailing slashes are removed. *)
Definition strip_trailing_slashes (s : jsstring) : jsstring :=
  rev (strip_leading_slashes (rev s)).

(** [_buildUrl(path)], with [this._baseUrl] as first argument. *)
Definition _buildUrl (_baseUrl path : jsstring) : jsstring :=
  let base := strip_trailing_slashes _baseUrl in
  let clean := strip_leading_slashes path in
  base ++ [SLASH] ++ clean.

(** A property key: a string or a symbol (with its description). *)
Inductive PropertyKey :=
| KeyString (s : jsstring)
| KeySymbol (description : jsstring).

(** [String(methodName)]. *)
Definition String_ (methodName : PropertyKey) : jsstring :=
  match methodName with
  | KeyString s => s
  | KeySymbol description => str "Symbol(" ++ description ++ str ")"
  end.

(** [allowSet.has(methodName)] for the set made of [allowedMethods]. *)
Definition has (allowedMethods : list jsstring) (methodName : jsstring) : bool :=
  existsb (eqb methodName) allowedMethods.

(** [_createService(endpoint, allowedMethods)]: the proxy, as the function
    its [get] trap computes. [None] is [undefined]; [Some path] is the
    async function the trap returns, which posts to [path]. *)
Definition _createService (endpoint : jsstring) (allowedMethods : list jsstring)
    (methodName : PropertyKey) : option jsstring :=
  let hasRestrictions := negb (Nat.eqb (List.length allowedMethods) 0) in
  let path := endpoint ++ [SLASH] ++ String_ methodName in
  match methodName with
  | KeyString s =>
      if eqb s (str "then") then None
      else if hasRestrictions && negb (has allowedMethods s) then None
      else Some path
  | KeySymbol _ => Some path
  end.

Definition datasources : PropertyKey -> option jsstring :=
  _createService (str "/datasources") [str "list"; str "disconnect"].
Definition connectors : PropertyKey -> option jsstring :=
  _createService (str "/connectors") [str "authorize"].

Section Call.

Context {P : StreamParser.Platform}.

(** [response.body.getReader()]: the chunks in which the platform
    delivers the body of a response and how the delivery ends; [None] when
    [response.body] is [null], where the call throws. *)
Variable getReader :
  HttpClient.Response -> option (list (list byte) * StreamParser.Ending).

(** How the promise of a service method settles. *)
Inductive Outcome :=
| ResolvesJson (r : IGPT.Resolved)          (* what [_postJson] gives *)
| ResolvesError (e : ErrorObject)           (* [res], an error value *)
| ResolvesStream (parser : StreamParser.t)  (* [new StreamParser(res)] *)
| Rejects.                                  (* a TypeError is thrown *)

(** The async function a service returns, from the test of [body.stream]
    on. The other members of [body] (the merged [user] among them) are
    sent with the request and do not change the flow. *)
Definition service_method (this : IGPT.t) (body : IGPT.RequestBody)
    (world : HttpClient.World) : option (Outcome * list IGPT.Event) :=
  if IGPT.stream body then
    match IGPT._execute this body world with
    | None => None
    | Some (res, tr) =>
        Some
          (match res with
           | HttpClient.RetError e =>
               (* [res?.error] is truthy unless it is the empty string *)
               if String.eqb (error e) "" then Rejects else ResolvesError e
           | HttpClient.RetResponse response =>
               match getReader response with
               | Some (chunks, e) =>
                   ResolvesStream (StreamParser.constructor chunks e)
               | None => Rejects
               end
           | HttpClient.RetUndefined =>
               (* [undefined.body] throws *)
               Rejects
           end,
           List.map IGPT.Http tr)
    end
  else
    match IGPT._postJson this body world with
    | None => None
    | Some (r, tr) => Some (ResolvesJson r, tr)
    end.

End Call.

End IGPTService.


(* ===================================================================== *)
(** ** The signal handed to fetch *)
(* ===================================================================== *)

Module HttpClientSignals.

Import HttpClient.

(** An abort signal: the one of a controller the caller made and passed
    as [options.signal], or [controller.signal] of an attempt. *)
Inductive AbortSignal :=
| CallerSignal
| AttemptSignal (attempt : Z).

(** The members of [options] besides [timeout], gathered by
    [...fetchOptions]; the model keeps [method] and [signal]. *)
Record FetchOptions := {
  method : option string;
  signal : option AbortSignal
}.

(** [{ ...fetchOptions, signal: controller.signal }]: the members of
    [fetchOptions], with [signal] written over. *)
Definition fetch_init (fetchOptions : FetchOptions) (controller_signal : AbortSignal)
  : FetchOptions :=
  {| method := method fetchOptions;
     signal := Some controller_signal |}.

(** How the exchange of an attempt ends when nothing aborts it. *)
Inductive Exchange :=
| Responds (response : Response)
| Fails (name : string).

(** What happens around each attempt while its fetch is in flight. *)
Record Environment := {
  exchange : Z -> Exchange;
  caller_aborts : Z -> bool;    (* the caller aborts its controller *)
  deadline_fires : Z -> bool    (* the timer runs [controller.abort()] *)
}.

(** Whether a signal aborts while the attempt is in flight. *)
Definition aborted (env : Environment) (attempt : Z) (s : AbortSignal) : bool :=
  match s with
  | CallerSignal => caller_aborts env attempt
  | AttemptSignal k => (k =? attempt) && deadline_fires env attempt
  end.

(** [fetch(resource, init)] as the platform runs it: it rejects with an
    AbortError when [init.signal] aborts, and ends as the exchange does
    otherwise. A rejection is given with [controller.signal.aborted] of the
    attempt, which the [catch] reads. *)
Definition fetch (env : Environment) (attempt : Z) (init : FetchOptions) : Settled :=
  let own_aborted := aborted env attempt (AttemptSignal attempt) in
  let cut :=
    match signal init with
    | Some s => aborted env attempt s
    | None => false
    end in
  if cut then Rejected "AbortError" own_aborted
  else
    match exchange env attempt with
    | Responds response => Fulfilled response
    | Fails name => Rejected name own_aborted
    end.

(** How the fetch of each attempt settles, with the init the code builds. *)
Definition world_of (env : Environment) (fetchOptions : FetchOptions) : World :=
  fun attempt => fetch env attempt (fetch_init fetchOptions (AttemptSignal attempt)).

(** [request(resource, { timeout, ...fetchOptions })] in an environment. *)
Definition request_with (this : t) (options : RequestOptions)
    (fetchOptions : FetchOptions) (env : Environment)
  : option (Returned * list Event) :=
  request this options (world_of env fetchOptions).

(** The same environment in which the caller never aborts. *)
Definition without_caller_abort (env : Environment) : Environment :=
  {| exchange := exchange env;
     caller_aborts := fun _ => false;
     deadline_fires := deadline_fires env |}.

(** The caller passes its signal and aborts while attempt 0 is in flight;
    the server answers 200 and no deadline fires. *)
Definition caller_signal : FetchOptions :=
  {| method := Some "POST"%string; signal := Some CallerSignal |}.

Definition ok_200 : Response :=
  {| status := 200; body := BodyText (Js.str "{}") |}.

Definition caller_aborts_attempt_0 : Environment :=
  {| exchange := fun _ => Responds ok_200;
     caller_aborts := fun k => k =? 0;
     deadline_fires := fun _ => false |}.

End HttpClientSignals.


(* ===================================================================== *)
(** ** Properties of the retrying executor *)
(* ===================================================================== *)

Module HttpClientFacts.

Import HttpClient.

(** *** Runs on concrete transports *)

Example request_always_503 :
  request Sample.policy Sample.no_override Sample.always_503
  = Some (RetResponse {| status := 503; body := BodyText (Js.str "busy") |},
          [SetTimeout 60000; Fetch 0; ClearTimeout; Sleep 100;
           SetTimeout 60000; Fetch 1; ClearTimeout; Sleep 200;
           SetTimeout 60000; Fetch 2; ClearTimeout]).
Proof. reflexivity. Qed.

Example request_foreign_abort_at_1 :
  request Sample.policy Sample.no_override Sample.foreign_abort_at_1
  = Some (RetError {| error := "request_aborted" |},
          [SetTimeout 60000; Fetch 0; ClearTimeout; Sleep 100;
           SetTimeout 60000; Fetch 1; ClearTimeout]).
Proof. reflexivity. Qed.

Example request_always_late :
  request Sample.policy {| timeout := Some 500 |} Sample.always_late
  = Some (RetError {| error := "timeout" |},
          [SetTimeout 500; Fetch 0; ClearTimeout; Sleep 100;
           SetTimeout 500; Fetch 1; ClearTimeout; Sleep 200;
           SetTimeout 500; Fetch 2; ClearTimeout]).
Proof. reflexivity. Qed.

Example request_transport_down :
  request Sample.policy Sample.no_override (fun _ => TransportFails)
  = Some (RetError {| error := "network_error" |},
          [SetTimeout 60000; Fetch 0; ClearTimeout; Sleep 100;
           SetTimeout 60000; Fetch 1; ClearTimeout; Sleep 200;
           SetTimeout 60000; Fetch 2; ClearTimeout]).
Proof. reflexivity. Qed.

(** With a negative [_retries] the loop body never runs and [request]
    returns [undefined]. *)
Example request_negative_retries :
  request (constructor (-1) 100 2 60000) Sample.no_override Sample.not_found
  = Some (RetUndefined, []).
Proof. reflexivity. Qed.

Section Loop.

Variable this : t.
Variable options : RequestOptions.
Variable world : World.

Local Abbreviation T := (reqTimeout this options).
Local Abbreviation backoff attempt :=
  (_backoffBase this * _backoffFactor this ^ attempt).

Lemma loop_past_end fuel attempt :
  _retries this < attempt ->
  loop this options world fuel attempt = Some (RetUndefined, []).
Proof.
  intros Hgt. destruct fuel; simpl;
    destruct (Z.leb_spec attempt (_retries this)); try lia; reflexivity.
Qed.

Lemma loop_no_fuel attempt :
  attempt <= _retries this ->
  loop this options world 0 attempt = None.
Proof.
  intros Hle. simpl.
  destruct (Z.leb_spec attempt (_retries this)); [reflexivity | lia].
Qed.

Lemma loop_iteration fuel attempt :
  attempt <= _retries this ->
  loop this options world (S fuel) attempt
  = match try_catch this world attempt with
    | Return r => Some (r, [SetTimeout T; Fetch attempt; ClearTimeout])
    | FallThrough =>
        match loop this options world fuel (attempt + 1) with
        | Some (r, tr) =>
            Some (r, [SetTimeout T; Fetch attempt; ClearTimeout;
                      Sleep (backoff attempt)] ++ tr)
        | None => None
        end
    end.
Proof.
  intros Hle. simpl.
  destruct (Z.leb_spec attempt (_retries this)); [reflexivity | lia].
Qed.

(** The last iteration never falls through. *)
Lemma try_catch_last :
  try_catch this world (_retries this) <> FallThrough.
Proof.
  unfold try_catch. rewrite Z.eqb_refl.
  destruct (world (_retries this)) as [response | name aborted].
  - rewrite orb_true_r. discriminate.
  - destruct ((name =? "AbortError")%string && negb aborted); [discriminate |].
    destruct ((name =? "AbortError")%string && aborted); discriminate.
Qed.

(** With one unit of fuel for each index left, the loop returns. *)
Lemma loop_returns fuel attempt :
  _retries this + 1 - attempt <= Z.of_nat fuel ->
  exists r tr, loop this options world fuel attempt = Some (r, tr).
Proof.
  revert attempt. induction fuel as [| fuel IH]; intros attempt Hfuel.
  - rewrite loop_past_end by lia. eauto.
  - destruct (Z.le_gt_cases attempt (_retries this)) as [Hle | Hgt].
    + rewrite loop_iteration by exact Hle.
      destruct (try_catch this world attempt); [eauto |].
      destruct (IH (attempt + 1)) as (r & tr & E); [lia |].
      rewrite E. eauto.
    + rewrite loop_past_end by lia. eauto.
Qed.

(** A run that starts inside the range starts with an attempt. *)
Lemma loop_starts fuel attempt r tr :
  attempt <= _retries this ->
  loop this options world fuel attempt = Some (r, tr) ->
  exists post, tr = SetTimeout T :: Fetch attempt :: post.
Proof.
  intros Hle E. destruct fuel as [| fuel].
  - rewrite loop_no_fuel in E by exact Hle. discriminate.
  - rewrite loop_iteration in E by exact Hle.
    destruct (try_catch this world attempt).
    + injection E as <- <-. eauto.
    + destruct (loop this options world fuel (attempt + 1)) as [[r' tr'] |];
        [| discriminate].
      injection E as <- <-. eauto.
Qed.

(** Every attempt of a run is decided by [try_catch]: when it returns,
    the run ends there with that value; when it falls through, the run
    goes on with the backoff wait and the next attempt. *)
Lemma loop_attempt fuel attempt r tr k :
  loop this options world fuel attempt = Some (r, tr) ->
  In (Fetch k) tr ->
  match try_catch this world k with
  | Return r' =>
      r = r' /\ exists pre, tr = pre ++ [Fetch k; ClearTimeout]
  | FallThrough =>
      exists pre post,
        tr = pre ++ [Fetch k; ClearTimeout; Sleep (backoff k);
                     SetTimeout T; Fetch (k + 1)] ++ post
  end.
Proof.
  revert attempt r tr. induction fuel as [| fuel IH]; intros attempt r tr E Hin.
  - destruct (Z.le_gt_cases attempt (_retries this)) as [Hle | Hgt].
    + rewrite loop_no_fuel in E by exact Hle. discriminate.
    + rewrite loop_past_end in E by exact Hgt.
      injection E as <- <-. destruct Hin.
  - destruct (Z.le_gt_cases attempt (_retries this)) as [Hle | Hgt].
    2:{ rewrite loop_past_end in E by exact Hgt.
        injection E as <- <-. destruct Hin. }
    rewrite loop_iteration in E by exact Hle.
    destruct (try_catch this world attempt) as [r0 |] eqn:Hv.
    + injection E as <- <-.
      assert (k = attempt) as ->.
      { simpl in Hin. destruct Hin as [H | [H | [H | []]]];
          try discriminate. injection H as ->. reflexivity. }
      rewrite Hv. split; [reflexivity |].
      exists [SetTimeout T]. reflexivity.
    + destruct (loop this options world fuel (attempt + 1)) as [[r' tr'] |] eqn:E';
        [| discriminate].
      injection E as <- <-.
      assert (Hcases : k = attempt \/ In (Fetch k) tr').
      { simpl in Hin.
        destruct Hin as [H | [H | [H | [H | H]]]]; try discriminate.
        - injection H as ->. left. reflexivity.
        - right. exact H. }
      destruct Hcases as [-> | Hin'].
      * rewrite Hv.
        assert (Hne : attempt <> _retries this).
        { intros ->. exact (try_catch_last Hv). }
        destruct (loop_starts fuel (attempt + 1) r' tr') as [post ->];
          [lia | exact E' |].
        exists [SetTimeout T], post. reflexivity.
      * specialize (IH _ _ _ E' Hin').
        destruct (try_catch this world k) as [r'' |].
        -- destruct IH as [-> [pre ->]]. split; [reflexivity |].
           exists ([SetTimeout T; Fetch attempt; ClearTimeout;
                    Sleep (backoff attempt)] ++ pre).
           rewrite <- app_assoc. reflexivity.
        -- destruct IH as (pre & post & ->).
           exists ([SetTimeout T; Fetch attempt; ClearTimeout;
                    Sleep (backoff attempt)] ++ pre), post.
           rewrite <- app_assoc. reflexivity.
Qed.

(** The trace read by [waits] when every attempt gets a retryable
    status: [m] further attempts follow the attempt [attempt], each after
    one wait. *)
Lemma loop_always_retryable :
  always_retryable world ->
  forall (m fuel : nat) (attempt : Z),
    attempt + Z.of_nat m = _retries this ->
    (m < fuel)%nat ->
    exists response tr,
      loop this options world fuel attempt = Some (RetResponse response, tr)
      /\ world (_retries this) = Fulfilled response
      /\ forall pending,
           waits_from pending tr
           = (attempt, pending)
             :: List.map (fun j => (attempt + Z.of_nat j,
                                    [backoff (attempt + Z.of_nat j - 1)]))
                         (seq 1 m).
Proof.
  intros Hall. induction m as [| m IH]; intros fuel attempt Hm Hfuel.
  - destruct fuel as [| fuel]; [lia |].
    assert (attempt = _retries this) as -> by lia.
    destruct (Hall (_retries this)) as (response & Hw & Hr).
    exists response, [SetTimeout T; Fetch (_retries this); ClearTimeout].
    split; [| split].
    + rewrite loop_iteration by lia.
      unfold try_catch. rewrite Hw, Z.eqb_refl, orb_true_r. reflexivity.
    + exact Hw.
    + intros pending. reflexivity.
  - destruct fuel as [| fuel]; [lia |].
    destruct (IH fuel (attempt + 1)) as (response & tr & E & Hw & Hwaits);
      [lia | lia |].
    destruct (Hall attempt) as (response0 & Hw0 & Hr0).
    exists response,
      ([SetTimeout T; Fetch attempt; ClearTimeout; Sleep (backoff attempt)] ++ tr).
    split; [| split].
    + rewrite loop_iteration by lia.
      unfold try_catch. rewrite Hw0, Hr0.
      replace (attempt =? _retries this) with false
        by (symmetry; apply Z.eqb_neq; lia).
      simpl negb. simpl orb. rewrite E. reflexivity.
    + exact Hw.
    + intros pending.
      change (waits_from pending
                ([SetTimeout T; Fetch attempt; ClearTimeout;
                  Sleep (backoff attempt)] ++ tr))
        with ((attempt, pending) :: waits_from [backoff attempt] tr).
      rewrite Hwaits.
      change (seq 1 (S m)) with (1%nat :: seq 2 m).
      rewrite <- (seq_shift m 1). cbn [List.map]. rewrite map_map.
      replace (attempt + Z.of_nat 1) with (attempt + 1) by lia.
      replace (attempt + 1 - 1) with attempt by lia.
      do 2 f_equal.
      apply map_ext. intros j.
      replace (attempt + 1 + Z.of_nat j) with (attempt + Z.of_nat (S j)) by lia.
      reflexivity.
Qed.

(** The error values [request] can return. *)
Lemma try_catch_error attempt e :
  try_catch this world attempt = Return (RetError e) ->
  error e = "request_aborted"%string
  \/ error e = "timeout"%string
  \/ error e = "network_error"%string.
Proof.
  unfold try_catch.
  destruct (world attempt) as [response | name aborted].
  - destruct (negb (isRetryableStatus response) || (attempt =? _retries this));
      discriminate.
  - destruct ((name =? "AbortError")%string && negb aborted).
    + intros H. injection H as <-. auto.
    + destruct (attempt =? _retries this); [| discriminate].
      destruct ((name =? "AbortError")%string && aborted);
        intros H; injection H as <-; auto.
Qed.

Lemma loop_error fuel attempt e tr :
  loop this options world fuel attempt = Some (RetError e, tr) ->
  error e = "request_aborted"%string
  \/ error e = "timeout"%string
  \/ error e = "network_error"%string.
Proof.
  revert attempt tr. induction fuel as [| fuel IH]; intros attempt tr E.
  - destruct (Z.le_gt_cases attempt (_retries this)) as [Hle | Hgt].
    + rewrite loop_no_fuel in E by exact Hle. discriminate.
    + rewrite loop_past_end in E by exact Hgt. discriminate.
  - destruct (Z.le_gt_cases attempt (_retries this)) as [Hle | Hgt].
    2:{ rewrite loop_past_end in E by exact Hgt. discriminate. }
    rewrite loop_iteration in E by exact Hle.
    destruct (try_catch this world attempt) as [r0 |] eqn:Hv.
    + injection E as -> <-. exact (try_catch_error attempt e Hv).
    + destruct (loop this options world fuel (attempt + 1)) as [[r' tr'] |] eqn:E';
        [| discriminate].
      injection E as -> <-. exact (IH _ _ E').
Qed.

End Loop.

Lemma request_returns this options world :
  exists r tr, request this options world = Some (r, tr).
Proof.
  unfold request. apply loop_returns. lia.
Qed.

(** C1. With [maxRetries = n >= 0] and a transport that always completes
    with a retryable status (5xx or 429), [request] issues exactly [n+1]
    attempts (and returns the response of the last one); no wait precedes
    attempt 0, and exactly one wait, of
    [backoffBase * backoffFactor^(k-1)] milliseconds, precedes each attempt
    [k >= 1]. *)
Theorem retryable_statuses_use_all_attempts this options world :
  0 <= _retries this ->
  always_retryable world ->
  exists response tr,
    request this options world = Some (RetResponse response, tr)
    /\ List.length (attempts tr) = Z.to_nat (_retries this + 1)
    /\ nth_error (waits tr) 0 = Some (0, [])
    /\ forall k, 1 <= k <= _retries this ->
         nth_error (waits tr) (Z.to_nat k)
         = Some (k, [_backoffBase this * _backoffFactor this ^ (k - 1)]).
Proof.
  intros Hn Hall.
  destruct (loop_always_retryable this options world Hall
              (Z.to_nat (_retries this)) (Z.to_nat (_retries this + 1)) 0)
    as (response & tr & E & _ & Hwaits); [lia | lia |].
  exists response, tr. unfold attempts, waits.
  rewrite Hwaits. split; [exact E |]. split; [| split].
  - rewrite length_map. cbn [List.length]. rewrite length_map, length_seq. lia.
  - reflexivity.
  - intros k Hk.
    replace (Z.to_nat k) with (S (Z.to_nat (k - 1))) by lia.
    cbn [nth_error].
    rewrite nth_error_map, nth_error_seq.
    destruct (Nat.ltb_spec (Z.to_nat (k - 1)) (Z.to_nat (_retries this))); [| lia].
    cbn [option_map]. do 3 f_equal; [lia |].
    do 2 f_equal. lia.
Qed.

(** CASE A of the [catch]: at whatever attempt, final or not, fetch
    rejects with an AbortError that the attempt's own controller did not
    raise, [request] returns [{ error: "request_aborted" }] and that
    attempt is the last thing it does besides clearing the timer. *)
Lemma foreign_abort_returns_request_aborted this options world :
  exists r tr,
    request this options world = Some (r, tr)
    /\ forall k,
         In (Fetch k) tr ->
         world k = ForeignAbort ->
         r = RetError {| error := "request_aborted" |}
         /\ exists pre, tr = pre ++ [Fetch k; ClearTimeout].
Proof.
  destruct (request_returns this options world) as (r & tr & E).
  exists r, tr. split; [exact E |].
  intros k Hin Hw.
  pose proof (loop_attempt this options world _ _ _ _ _ E Hin) as H.
  unfold try_catch in H. rewrite Hw in H. exact H.
Qed.

(** C3. When the deadline armed by the executor expires during the final
    attempt, [request] returns [{ error: "timeout" }]; when it expires
    during an earlier attempt, [request] does not return there: it waits
    the backoff delay and issues the next attempt. *)
Theorem own_deadline_times_out_only_on_final_attempt this options world :
  exists r tr,
    request this options world = Some (r, tr)
    /\ forall k,
         In (Fetch k) tr ->
         world k = DeadlineFires ->
         (k = _retries this ->
          r = RetError {| error := "timeout" |}
          /\ exists pre, tr = pre ++ [Fetch k; ClearTimeout])
         /\ (k <> _retries this ->
             exists pre post,
               tr = pre
                    ++ [Fetch k; ClearTimeout;
                        Sleep (_backoffBase this * _backoffFactor this ^ k);
                        SetTimeout (reqTimeout this options); Fetch (k + 1)]
                    ++ post).
Proof.
  destruct (request_returns this options world) as (r & tr & E).
  exists r, tr. split; [exact E |].
  intros k Hin Hw.
  pose proof (loop_attempt this options world _ _ _ _ _ E Hin) as H.
  unfold try_catch in H. rewrite Hw in H. cbn in H.
  destruct (Z.eqb_spec k (_retries this)) as [Heq | Hne].
  - split; [intros _; exact H | intros Hne; contradiction].
  - split; [intros Heq; contradiction | intros _; exact H].
Qed.

(** C4. For every [maxRetries >= 0]: a first attempt that completes with
    a status that is neither 5xx nor 429 makes [request] return that
    response at once, after the single attempt 0; and a response received
    on the last attempt, retryable status or not, is returned as a
    response, not as an error. *)
Theorem statuses_are_returned_as_responses this options world :
  0 <= _retries this ->
  (forall response,
      world 0 = Fulfilled response ->
      isRetryableStatus response = false ->
      request this options world
      = Some (RetResponse response,
              [SetTimeout (reqTimeout this options); Fetch 0; ClearTimeout]))
  /\ exists r tr,
       request this options world = Some (r, tr)
       /\ forall response,
            In (Fetch (_retries this)) tr ->
            world (_retries this) = Fulfilled response ->
            r = RetResponse response
            /\ exists pre, tr = pre ++ [Fetch (_retries this); ClearTimeout].
Proof.
  intros Hn. split.
  - intros response Hw Hr. unfold request.
    replace (Z.to_nat (_retries this + 1)) with (S (Z.to_nat (_retries this)))
      by lia.
    rewrite loop_iteration by exact Hn.
    unfold try_catch. rewrite Hw, Hr. reflexivity.
  - destruct (request_returns this options world) as (r & tr & E).
    exists r, tr. split; [exact E |].
    intros response Hin Hw.
    pose proof (loop_attempt this options world _ _ _ _ _ E Hin) as H.
    unfold try_catch in H. rewrite Hw, Z.eqb_refl, orb_true_r in H. exact H.
Qed.

(** *** The theorems at concrete inputs *)

Lemma retryable_statuses_use_all_attempts_witness :
  0 <= _retries Sample.policy
  /\ always_retryable Sample.always_503
  /\ exists response tr,
       request Sample.policy Sample.no_override Sample.always_503
       = Some (RetResponse response, tr)
       /\ List.length (attempts tr) = 3%nat
       /\ nth_error (waits tr) 0 = Some (0, [])
       /\ nth_error (waits tr) 1 = Some (1, [100])
       /\ nth_error (waits tr) 2 = Some (2, [200]).
Proof.
  assert (H0 : 0 <= _retries Sample.policy) by (simpl; lia).
  assert (H1 : always_retryable Sample.always_503)
    by (intros k; eexists; split; reflexivity).
  split; [exact H0 |]. split; [exact H1 |].
  destruct (retryable_statuses_use_all_attempts
              Sample.policy Sample.no_override Sample.always_503 H0 H1)
    as (response & tr & E & Hlen & Hfirst & Hnext).
  exists response, tr. split; [exact E |]. split; [exact Hlen |].
  split; [exact Hfirst |]. split.
  - apply (Hnext 1). simpl. lia.
  - apply (Hnext 2). simpl. lia.
Defined.

Lemma own_deadline_times_out_only_on_final_attempt_witness :
  Sample.always_late 0 = DeadlineFires
  /\ Sample.always_late 2 = DeadlineFires
  /\ exists tr,
       request Sample.policy Sample.no_override Sample.always_late
       = Some (RetError {| error := "timeout" |}, tr)
       /\ (exists pre, tr = pre ++ [Fetch 2; ClearTimeout])
       /\ exists pre post,
            tr = pre ++ [Fetch 0; ClearTimeout; Sleep 100;
                         SetTimeout 60000; Fetch 1] ++ post.
Proof.
  split; [reflexivity |]. split; [reflexivity |].
  destruct (own_deadline_times_out_only_on_final_attempt
              Sample.policy Sample.no_override Sample.always_late)
    as (r & tr & E & H).
  assert (Hin : In (Fetch 0) tr /\ In (Fetch 2) tr).
  { vm_compute in E. injection E as _ <-. simpl. auto 20. }
  destruct Hin as [Hin0 Hin2].
  destruct (H 2 Hin2 eq_refl) as [Hfinal _].
  destruct (Hfinal eq_refl) as [-> Hlast].
  destruct (H 0 Hin0 eq_refl) as [_ Hretry].
  exists tr. split; [exact E |]. split; [exact Hlast |].
  apply Hretry. discriminate.
Defined.

Lemma statuses_are_returned_as_responses_witness :
  0 <= _retries Sample.policy
  /\ request Sample.policy Sample.no_override Sample.not_found
     = Some (RetResponse {| status := 404; body := BodyText (Js.str "{}") |},
             [SetTimeout 60000; Fetch 0; ClearTimeout])
  /\ exists response tr,
       request Sample.policy Sample.no_override Sample.always_503
       = Some (RetResponse response, tr)
       /\ status response = 503.
Proof.
  assert (H0 : 0 <= _retries Sample.policy) by (simpl; lia).
  split; [exact H0 |]. split.
  - destruct (statuses_are_returned_as_responses
                Sample.policy Sample.no_override Sample.not_found H0)
      as [Hfirst _].
    apply Hfirst; reflexivity.
  - destruct (statuses_are_returned_as_responses
                Sample.policy Sample.no_override Sample.always_503 H0)
      as [_ (r & tr & E & Hlast)].
    assert (Hin : In (Fetch (_retries Sample.policy)) tr).
    { vm_compute in E. injection E as _ <-. simpl. auto 20. }
    destruct (Hlast _ Hin eq_refl) as [-> _].
    eexists. exists tr. split; [exact E | reflexivity].
Defined.

End HttpClientFacts.


(* ===================================================================== *)
(** ** Properties of the stream decoder *)
(* ===================================================================== *)

Module StreamParserFacts.

Import Js StreamParser.

(** *** Splitting a text into lines *)

Lemma split_not_nil s sep : split s sep <> [].
Proof.
  destruct s as [| c s]; simpl; [discriminate |].
  destruct (c =? sep)%N; [discriminate |].
  destruct (split s sep); discriminate.
Qed.

Lemma pop_cons {A : Type} (x : A) (l : list A) :
  l <> [] -> pop (x :: l) = (fst (pop l), x :: snd (pop l)).
Proof.
  intros Hl. unfold pop. simpl rev.
  destruct (rev l) as [| y r] eqn:E.
  - apply (f_equal (@rev A)) in E. rewrite rev_involutive in E.
    simpl in E. contradiction.
  - simpl. rewrite rev_app_distr. reflexivity.
Qed.

Lemma complete_lines_LF s :
  complete_lines (LF :: s) = [] :: complete_lines s.
Proof.
  unfold complete_lines. simpl split.
  rewrite pop_cons by apply split_not_nil. reflexivity.
Qed.

Lemma partial_line_LF s : partial_line (LF :: s) = partial_line s.
Proof.
  unfold partial_line. simpl split.
  rewrite pop_cons by apply split_not_nil. reflexivity.
Qed.

Lemma complete_lines_other c s :
  c <> LF ->
  complete_lines (c :: s)
  = match complete_lines s with
    | [] => []
    | l :: ls => (c :: l) :: ls
    end.
Proof.
  intros Hc. unfold complete_lines. simpl split.
  destruct (N.eqb_spec c LF) as [-> | _]; [contradiction |].
  destruct (split s LF) as [| p ps] eqn:E; [destruct (split_not_nil _ _ E) |].
  destruct ps as [| q qs]; [reflexivity |].
  rewrite (pop_cons (c :: p)), (pop_cons p) by discriminate. reflexivity.
Qed.

Lemma partial_line_other c s :
  c <> LF ->
  partial_line (c :: s)
  = match complete_lines s with
    | [] => c :: partial_line s
    | _ :: _ => partial_line s
    end.
Proof.
  intros Hc. unfold partial_line, complete_lines. simpl split.
  destruct (N.eqb_spec c LF) as [-> | _]; [contradiction |].
  destruct (split s LF) as [| p ps] eqn:E; [destruct (split_not_nil _ _ E) |].
  destruct ps as [| q qs]; [reflexivity |].
  rewrite (pop_cons (c :: p)), (pop_cons p) by discriminate. reflexivity.
Qed.

(** Appending text leaves the lines already complete as they are and
    continues the partial line. *)
Lemma lines_app s1 s2 :
  complete_lines (s1 ++ s2)
  = complete_lines s1 ++ complete_lines (partial_line s1 ++ s2)
  /\ partial_line (s1 ++ s2) = partial_line (partial_line s1 ++ s2).
Proof.
  induction s1 as [| c s1 [IHc IHp]]; [split; reflexivity |].
  rewrite <- app_comm_cons.
  destruct (N.eqb_spec c LF) as [-> | Hc].
  - rewrite !complete_lines_LF, !partial_line_LF, IHc, IHp.
    split; reflexivity.
  - rewrite !(complete_lines_other c), !(partial_line_other c) by exact Hc.
    rewrite IHc, IHp.
    destruct (complete_lines s1) as [| l ls].
    + rewrite <- app_comm_cons.
      rewrite (complete_lines_other c), (partial_line_other c) by exact Hc.
      split; reflexivity.
    + split; reflexivity.
Qed.

Lemma complete_lines_app s1 s2 :
  complete_lines (s1 ++ s2)
  = complete_lines s1 ++ complete_lines (partial_line s1 ++ s2).
Proof. apply lines_app. Qed.

Lemma partial_line_app s1 s2 :
  partial_line (s1 ++ s2) = partial_line (partial_line s1 ++ s2).
Proof. apply lines_app. Qed.

(** The partial line holds no complete line. *)
Lemma complete_lines_partial_line s : complete_lines (partial_line s) = [].
Proof.
  induction s as [| c s IH]; [reflexivity |].
  destruct (N.eqb_spec c LF) as [-> | Hc].
  - rewrite partial_line_LF. exact IH.
  - rewrite partial_line_other by exact Hc.
    destruct (complete_lines s) eqn:E; [| exact IH].
    rewrite complete_lines_other by exact Hc. rewrite IH. reflexivity.
Qed.

Lemma partial_line_whole s : complete_lines s = [] -> partial_line s = s.
Proof.
  induction s as [| c s IH]; [reflexivity |].
  destruct (N.eqb_spec c LF) as [-> | Hc].
  - rewrite complete_lines_LF. discriminate.
  - rewrite complete_lines_other, partial_line_other by exact Hc.
    destruct (complete_lines s); [| discriminate].
    intros _. rewrite IH; reflexivity.
Qed.

(** *** The iteration *)

Section Iteration.

Context {P : Platform}.

Lemma decode_app d a b :
  decode d (a ++ b)
  = (fst (decode (fst (decode d a)) b),
     snd (decode d a) ++ snd (decode (fst (decode d a)) b)).
Proof.
  revert d. induction a as [| x a IH]; intros d; simpl.
  - destruct (decode d b). reflexivity.
  - destruct (decoder_handler d x) as [d1 out1]. rewrite IH.
    destruct (decode d1 a) as [d2 out2]. simpl.
    rewrite app_assoc. reflexivity.
Qed.

Lemma frames_app l1 l2 : frames (l1 ++ l2) = frames l1 ++ frames l2.
Proof.
  induction l1 as [| raw l1 IH]; [reflexivity |].
  simpl. destruct (frame raw); rewrite IH; reflexivity.
Qed.

Lemma for_lines_frames lines :
  match for_lines lines with
  | Some (v, rest) => frames lines = Frame v :: frames rest
  | None => frames lines = []
  end.
Proof.
  induction lines as [| raw lines IH]; [reflexivity |].
  simpl. destruct (frame raw); [reflexivity | exact IH].
Qed.

(** One run of [while (true)] up to its next suspension. *)
Lemma while_true_spec cs e b d :
  complete_lines b = [] ->
  let g0 := {| _reader := {| chunks := cs; ending := e; releaseLock_calls := 0 |};
               _buffer := b; decoder := d; control := Start |} in
  match while_true cs e 0 b d with
  | (g', Value y) =>
      tail_values g0 = y :: remaining g'
      /\ consistent g' /\ suspended g'
      /\ eventual_buffer g' = eventual_buffer g0
  | (g', Done) =>
      tail_values g0 = []
      /\ consistent g' /\ control g' = Completed
      /\ _buffer g' = eventual_buffer g0
  end.
Proof.
  revert b d. induction cs as [| value cs IH]; intros b d Hb g0.
  - subst g0. unfold tail_values, eventual_buffer. simpl.
    rewrite app_nil_r, Hb. destruct e; unfold consistent, suspended; simpl.
    + repeat split; try reflexivity; try exact Hb; try discriminate.
      symmetry. apply partial_line_whole. exact Hb.
    + repeat split; try reflexivity; try exact Hb; try discriminate.
      rewrite app_nil_r. reflexivity.
  - subst g0. unfold tail_values, eventual_buffer.
    cbn [while_true _reader _buffer decoder chunks ending List.concat].
    rewrite decode_app.
    destruct (decode d value) as [d' text] eqn:Ed. cbn [fst snd].
    rewrite app_assoc.
    rewrite (complete_lines_app (b ++ text)), (partial_line_app (b ++ text)).
    pose proof (complete_lines_partial_line (b ++ text)) as Hb'.
    remember (pop (split (b ++ text) LF)) as popped eqn:Epop.
    destruct popped as [last lines'].
    assert (Hlines : complete_lines (b ++ text) = lines')
      by (unfold complete_lines; rewrite <- Epop; reflexivity).
    assert (Hpart : partial_line (b ++ text) = or_empty last)
      by (unfold partial_line; rewrite <- Epop; reflexivity).
    rewrite Hlines, Hpart, frames_app. rewrite Hpart in Hb'.
    pose proof (for_lines_frames lines') as Hf.
    destruct (for_lines lines') as [[v rest] |].
    + rewrite Hf. unfold consistent, suspended, remaining, tail_values. simpl.
      rewrite app_assoc.
      repeat split; try reflexivity; try exact Hb'; discriminate.
    + rewrite Hf. specialize (IH (or_empty last) d' Hb').
      exact IH.
Qed.

Lemma resume_while_spec g :
  consistent g ->
  control g <> Completed ->
  control g <> AtYieldError ->
  match resume_while g with
  | (g', Value y) =>
      tail_values g = y :: remaining g'
      /\ consistent g' /\ suspended g'
      /\ eventual_buffer g' = eventual_buffer g
  | (g', Done) =>
      tail_values g = []
      /\ consistent g' /\ control g' = Completed
      /\ _buffer g' = eventual_buffer g
  end.
Proof.
  intros (Hb & Hcalls & _) Hc He.
  unfold resume_while.
  replace (releaseLock_calls (_reader g)) with 0%nat
    by (rewrite Hcalls; destruct (control g); try reflexivity; contradiction).
  exact (while_true_spec (chunks (_reader g)) (ending (_reader g))
                         (_buffer g) (decoder g) Hb).
Qed.

(** One call of [next()]. *)
Lemma next_spec g :
  consistent g ->
  match next g with
  | (g', Value y) =>
      remaining g = y :: remaining g'
      /\ consistent g' /\ suspended g'
      /\ eventual_buffer g' = eventual_buffer g
  | (g', Done) =>
      remaining g = []
      /\ consistent g' /\ control g' = Completed
      /\ (control g <> Completed -> _buffer g' = eventual_buffer g)
  end.
Proof.
  intros Hg. unfold next, remaining.
  destruct (control g) as [| rest | |] eqn:Hc.
  - pose proof (resume_while_spec g Hg) as H. rewrite Hc in H.
    specialize (H ltac:(discriminate) ltac:(discriminate)).
    destruct (resume_while g) as [g' [y |]]; [exact H |].
    destruct H as (H1 & H2 & H3 & H4). auto.
  - pose proof (for_lines_frames rest) as Hf.
    destruct (for_lines rest) as [[v rest'] |].
    + rewrite Hf.
      unfold consistent, suspended, remaining, tail_values, eventual_buffer.
      destruct Hg as (Hb & Hcalls & _). rewrite Hc in Hcalls. simpl.
      repeat split; try reflexivity; try assumption; discriminate.
    + rewrite Hf. pose proof (resume_while_spec g Hg) as H. rewrite Hc in H.
      specialize (H ltac:(discriminate) ltac:(discriminate)).
      destruct (resume_while g) as [g' [y |]]; [exact H |].
      destruct H as (H1 & H2 & H3 & H4). auto.
  - destruct Hg as (Hb & Hcalls & Hcs). rewrite Hc in Hcalls.
    unfold consistent, finally, eventual_buffer. simpl. rewrite Hcalls.
    repeat split; try reflexivity; try assumption; try discriminate.
    intros _. rewrite (Hcs Hc). simpl. rewrite app_nil_r.
    symmetry. apply partial_line_whole. exact Hb.
  - repeat split; try apply Hg; try assumption.
    intros H. contradiction.
Qed.

(** An iteration run to its end yields the remaining values, ends the
    body and leaves the last partial line in the buffer. *)
Lemma for_await_spec fuel g :
  consistent g ->
  control g <> Completed ->
  (List.length (remaining g) < fuel)%nat ->
  exists g',
    for_await fuel g = Some (remaining g, g')
    /\ consistent g' /\ control g' = Completed
    /\ _buffer g' = eventual_buffer g.
Proof.
  revert g. induction fuel as [| fuel IH]; intros g Hg Hc Hfuel; [lia |].
  pose proof (next_spec g Hg) as H. simpl.
  destruct (next g) as [g1 [y |]].
  - destruct H as (Hr & Hg1 & Hc1 & Hb1).
    rewrite Hr in Hfuel. simpl in Hfuel.
    destruct (IH g1 Hg1 (proj2 Hc1)) as (g' & E & Hg' & Hc' & Hb'); [lia |].
    exists g'. rewrite E, Hr, Hb', Hb1. auto.
  - destruct H as (Hr & Hg1 & Hc1 & Hb1).
    exists g1. rewrite Hr. auto.
Qed.

Lemma return_spec g :
  consistent g ->
  suspended g ->
  consistent (return_ g) /\ control (return_ g) = Completed.
Proof.
  intros (Hb & Hcalls & _) [Hs Hc]. unfold return_, consistent.
  destruct (control g); try contradiction; simpl; rewrite Hcalls;
    repeat split; try assumption; discriminate.
Qed.

(** An iteration left by [break] ends the body too. *)
Lemma for_await_break_spec n g :
  consistent g ->
  control g <> Completed ->
  fst (for_await_break n g) = firstn (S n) (remaining g)
  /\ consistent (snd (for_await_break n g))
  /\ control (snd (for_await_break n g)) = Completed.
Proof.
  revert g. induction n as [| n IH]; intros g Hg Hc.
  - pose proof (next_spec g Hg) as H. simpl.
    destruct (next g) as [g1 [y |]].
    + destruct H as (Hr & Hg1 & Hc1 & _). rewrite Hr. simpl.
      split; [reflexivity |]. apply return_spec; assumption.
    + destruct H as (Hr & Hg1 & Hc1 & _). rewrite Hr. simpl. auto.
  - pose proof (next_spec g Hg) as H. simpl.
    destruct (next g) as [g1 [y |]].
    + destruct H as (Hr & Hg1 & Hc1 & _). rewrite Hr.
      destruct (IH g1 Hg1 (proj2 Hc1)) as (Hv & Hg' & Hc').
      destruct (for_await_break n g1) as [ys g']. simpl in *.
      rewrite Hv. auto.
    + destruct H as (Hr & Hg1 & Hc1 & _). rewrite Hr. simpl. auto.
Qed.

Lemma constructor_consistent body e : consistent (constructor body e).
Proof. repeat split. discriminate. Qed.

Lemma frame_skipped raw :
  startsWith (trim raw) (str "data:") = false
  \/ isEmpty (trim (slice (trim raw) 5)) = true
  \/ JSON_parse (trim (slice (trim raw) 5)) = None ->
  frame raw = None.
Proof.
  unfold frame. intros [H | [H | H]].
  - rewrite H. reflexivity.
  - rewrite H. destruct (startsWith (trim raw) (str "data:")); reflexivity.
  - rewrite H. destruct (startsWith (trim raw) (str "data:")); [| reflexivity].
    destruct (isEmpty (trim (slice (trim raw) 5))); reflexivity.
Qed.

Lemma frames_In lines raw v :
  In raw lines -> frame raw = Some v -> In (Frame v) (frames lines).
Proof.
  intros Hin Hf. induction lines as [| raw' lines IH]; [destruct Hin |].
  simpl. destruct Hin as [-> | Hin].
  - rewrite Hf. left. reflexivity.
  - destruct (frame raw'); [right |]; apply IH; exact Hin.
Qed.

(** The whole sequence of an iteration. *)
Lemma for_await_constructor body e fuel :
  (List.length (values_of (List.concat body) e) < fuel)%nat ->
  exists g',
    for_await fuel (constructor body e) = Some (values_of (List.concat body) e, g')
    /\ consistent g' /\ control g' = Completed
    /\ _buffer g' = partial_line (text_of (List.concat body)).
Proof.
  intros Hfuel.
  apply (for_await_spec fuel (constructor body e)).
  - apply constructor_consistent.
  - discriminate.
  - exact Hfuel.
Qed.

Lemma consistent_completed_calls g :
  consistent g -> control g = Completed ->
  releaseLock_calls (_reader g) = 1%nat.
Proof. intros (_ & Hcalls & _) Hc. rewrite Hc in Hcalls. exact Hcalls. Qed.

(** C5. The values an iteration yields are those of the complete lines of
    the whole decoded text, one for each line that carries a frame, in the
    order of the lines; so they do not depend on how the byte stream is cut
    into chunks. The text after the last line feed stays in [_buffer]. In
    particular the bytes of [data: {"a":1}\n\n], cut in two at any place,
    yield the one value that [JSON.parse] gives for [{"a":1}]. *)
Theorem chunk_boundaries_keep_the_values :
  (forall body e fuel,
      (List.length (values_of (List.concat body) e) < fuel)%nat ->
      exists g',
        for_await fuel (constructor body e)
        = Some (frames (complete_lines (text_of (List.concat body)))
                ++ ending_values e, g')
        /\ _buffer g' = partial_line (text_of (List.concat body)))
  /\ (forall body1 body2 e fuel,
         List.concat body1 = List.concat body2 ->
         (List.length (values_of (List.concat body1) e) < fuel)%nat ->
         exists ys g1 g2,
           for_await fuel (constructor body1 e) = Some (ys, g1)
           /\ for_await fuel (constructor body2 e) = Some (ys, g2))
  /\ (forall (i : nat) v fuel,
         text_of (bytes a1_stream) = str a1_stream ->
         JSON_parse (str a1_payload) = Some v ->
         (1 < fuel)%nat ->
         exists g',
           for_await fuel
             (constructor [firstn i (bytes a1_stream);
                           skipn i (bytes a1_stream)] EndOfData)
           = Some ([Frame v], g')).
Proof.
  split; [| split].
  - intros body e fuel Hfuel.
    destruct (for_await_constructor body e fuel Hfuel) as (g' & E & _ & _ & Hb).
    exists g'. split; [exact E | exact Hb].
  - intros body1 body2 e fuel Hsame Hfuel.
    destruct (for_await_constructor body1 e fuel Hfuel) as (g1 & E1 & _).
    rewrite Hsame in Hfuel.
    destruct (for_await_constructor body2 e fuel Hfuel) as (g2 & E2 & _).
    exists (values_of (List.concat body1) e), g1, g2.
    split; [exact E1 |]. rewrite Hsame. exact E2.
  - intros i v fuel Htext Hparse Hfuel.
    assert (Hvalues :
              values_of (List.concat [firstn i (bytes a1_stream);
                                      skipn i (bytes a1_stream)])
                        EndOfData
              = [Frame v]).
    { simpl List.concat. rewrite app_nil_r, firstn_skipn.
      unfold values_of. rewrite Htext.
      vm_compute in Hparse. vm_compute. rewrite Hparse. reflexivity. }
    destruct (for_await_constructor
                [firstn i (bytes a1_stream);
                 skipn i (bytes a1_stream)] EndOfData fuel)
      as (g' & E & _).
    + rewrite Hvalues. exact Hfuel.
    + exists g'. rewrite E, Hvalues. reflexivity.
Qed.

(** C6. When a [read()] rejects after the chunks of [body] were
    delivered, the iteration yields the frames of the complete lines
    received so far, then the one value [{ error: "network_error" }], and
    ends: the next [next()] reports the end, nothing is thrown. *)
Theorem read_failure_yields_one_network_error body fuel :
  (List.length (frames (complete_lines (text_of (List.concat body)))) + 1 < fuel)%nat ->
  exists g',
    for_await fuel (constructor body ReadFails)
    = Some (frames (complete_lines (text_of (List.concat body)))
            ++ [Failure {| error := "network_error" |}], g')
    /\ control g' = Completed
    /\ next g' = (g', Done).
Proof.
  intros Hfuel.
  destruct (for_await_constructor body ReadFails fuel) as (g' & E & _ & Hc & _).
  - unfold values_of. rewrite length_app. simpl. exact Hfuel.
  - exists g'. split; [exact E |]. split; [exact Hc |].
    unfold next. rewrite Hc. reflexivity.
Qed.

(** C7. [releaseLock()] is called exactly once in an iteration, however
    it ends: at the end of the data, after the error value of a failed
    read, or when the consumer leaves the loop at any value; a line that
    [JSON.parse] rejects changes nothing to it; and once the body has
    ended, further [next()] and [return()] calls do nothing. *)
Theorem reader_is_released_exactly_once body e :
  (forall fuel,
      (List.length (values_of (List.concat body) e) < fuel)%nat ->
      exists ys g',
        for_await fuel (constructor body e) = Some (ys, g')
        /\ control g' = Completed
        /\ releaseLock_calls (_reader g') = 1%nat)
  /\ (forall n,
         control (snd (for_await_break n (constructor body e))) = Completed
         /\ releaseLock_calls (_reader (snd (for_await_break n (constructor body e))))
            = 1%nat)
  /\ (forall g, control g = Completed -> next g = (g, Done) /\ return_ g = g).
Proof.
  split; [| split].
  - intros fuel Hfuel.
    destruct (for_await_constructor body e fuel Hfuel) as (g' & E & Hg & Hc & _).
    exists (values_of (List.concat body) e), g'.
    split; [exact E |]. split; [exact Hc |].
    apply consistent_completed_calls; assumption.
  - intros n.
    destruct (for_await_break_spec n (constructor body e)) as (_ & Hg & Hc).
    + apply constructor_consistent.
    + discriminate.
    + split; [exact Hc |]. apply consistent_completed_calls; assumption.
  - intros g Hc. unfold next, return_. rewrite Hc. split; reflexivity.
Qed.

(** C8. A complete line that is passed over (its [data:] remainder is not
    valid JSON, or it does not begin with [data:], or its remainder is
    empty) yields nothing and does not end the sequence: the values are
    those of the lines before it followed by those of the lines after it,
    so every later line that carries a frame is still yielded. *)
Theorem skipped_lines_do_not_stop_the_stream body e lines1 raw lines2 fuel :
  complete_lines (text_of (List.concat body)) = lines1 ++ raw :: lines2 ->
  startsWith (trim raw) (str "data:") = false
  \/ isEmpty (trim (slice (trim raw) 5)) = true
  \/ JSON_parse (trim (slice (trim raw) 5)) = None ->
  (List.length (frames lines1 ++ frames lines2 ++ ending_values e) < fuel)%nat ->
  (exists g',
      for_await fuel (constructor body e)
      = Some (frames lines1 ++ frames lines2 ++ ending_values e, g'))
  /\ (forall raw' v,
         In raw' lines2 -> frame raw' = Some v -> In (Frame v) (frames lines2)).
Proof.
  intros Hlines Hraw Hfuel.
  assert (Hvalues : values_of (List.concat body) e
                    = frames lines1 ++ frames lines2 ++ ending_values e).
  { unfold values_of. rewrite Hlines, frames_app. simpl.
    rewrite (frame_skipped raw Hraw), <- app_assoc. reflexivity. }
  split.
  - destruct (for_await_constructor body e fuel) as (g' & E & _).
    + rewrite Hvalues. exact Hfuel.
    + exists g'. rewrite E, Hvalues. reflexivity.
  - intros raw' v. apply frames_In.
Qed.

End Iteration.

#[local] Existing Instance Sample.platform.

(** *** Runs on concrete streams *)

Example split_lines :
  split (str ("a" ++ NL ++ NL ++ "bc")) LF = [str "a"; []; str "bc"]
  /\ split (str ("a" ++ NL)) LF = [str "a"; []]
  /\ split [] LF = [[]].
Proof. repeat split. Qed.

Example trim_line :
  trim (str ("  data: 1 " ++ NL)) = str "data: 1"
  /\ trim (slice (str "data: 1") 5) = str "1".
Proof. repeat split. Qed.

(** A frame cut in the middle: the first [next()] reads both chunks. *)
Example next_over_a_cut_frame :
  next
       (constructor [bytes "data: 4"; bytes ("2" ++ NL ++ "da")] EndOfData)
  = ({| _reader := {| chunks := []; ending := EndOfData;
                      releaseLock_calls := 0 |};
        _buffer := str "da";
        decoder := tt;
        control := AtYieldFrame [] |},
     Value (Frame (Sample.JNumber 42))).
Proof. reflexivity. Qed.

Example iterate_two_frames_and_a_half :
  for_await 4
    (constructor Sample.two_frames_and_a_half EndOfData)
  = Some ([Frame (Sample.JNumber 1);
           Frame (Sample.JNumber 2)],
          {| _reader := {| chunks := []; ending := EndOfData;
                           releaseLock_calls := 1 |};
             _buffer := str "data: ";
             decoder := tt;
             control := Completed |}).
Proof. reflexivity. Qed.

(** [return()] on a generator whose body was never entered runs no
    [finally] block: the iterations considered below are those a
    [for await] loop drives, which starts with a [next()]. *)
Example return_before_the_first_next :
  releaseLock_calls
    (_reader (return_
                (constructor Sample.two_frames_and_a_half EndOfData)))
  = 0%nat.
Proof. reflexivity. Qed.

(** *** The theorems on concrete streams *)

Lemma chunk_boundaries_keep_the_values_witness :
  text_of (P := Sample.platform) (bytes a1_stream) = str a1_stream
  /\ Sample.JSON_parse (str a1_payload)
     = Some (Sample.JObject [(str "a", Sample.JNumber 1)])
  /\ exists g',
       for_await (P := Sample.platform) 2
         (constructor [firstn 9 (bytes a1_stream);
                       skipn 9 (bytes a1_stream)] EndOfData)
       = Some ([Frame (Sample.JObject [(str "a", Sample.JNumber 1)])], g').
Proof.
  assert (H1 : text_of (P := Sample.platform) (bytes a1_stream)
               = str a1_stream) by reflexivity.
  assert (H2 : Sample.JSON_parse (str a1_payload)
               = Some (Sample.JObject [(str "a", Sample.JNumber 1)]))
    by reflexivity.
  split; [exact H1 |]. split; [exact H2 |].
  destruct (chunk_boundaries_keep_the_values (P := Sample.platform))
    as (_ & _ & Hexample).
  apply (Hexample 9%nat _ 2%nat H1 H2). lia.
Defined.

Lemma read_failure_yields_one_network_error_witness :
  exists g',
    for_await (P := Sample.platform) 4
      (constructor Sample.two_frames_and_a_half ReadFails)
    = Some ([Frame (Sample.JNumber 1); Frame (Sample.JNumber 2);
             Failure {| error := "network_error" |}], g')
    /\ control g' = Completed.
Proof.
  destruct (read_failure_yields_one_network_error
              (P := Sample.platform) Sample.two_frames_and_a_half 4)
    as (g' & E & Hc & _).
  - vm_compute. lia.
  - exists g'. split; [exact E | exact Hc].
Defined.

Lemma reader_is_released_exactly_once_witness :
  (exists ys g',
      for_await (P := Sample.platform) 4
        (constructor Sample.two_frames_and_a_half ReadFails) = Some (ys, g')
      /\ releaseLock_calls (_reader g') = 1%nat)
  /\ releaseLock_calls
       (_reader (snd (for_await_break (P := Sample.platform) 0
                        (constructor Sample.two_frames_and_a_half EndOfData))))
     = 1%nat.
Proof.
  split.
  - destruct (reader_is_released_exactly_once
                (P := Sample.platform) Sample.two_frames_and_a_half ReadFails)
      as (Hend & _ & _).
    destruct (Hend 4%nat) as (ys & g' & E & _ & Hcalls).
    + vm_compute. lia.
    + exists ys, g'. split; [exact E | exact Hcalls].
  - destruct (reader_is_released_exactly_once
                (P := Sample.platform) Sample.two_frames_and_a_half EndOfData)
      as (_ & Hbreak & _).
    apply Hbreak.
Defined.

Lemma skipped_lines_do_not_stop_the_stream_witness :
  Sample.JSON_parse (trim (slice (trim (str "data: not-json")) 5)) = None
  /\ exists g',
       for_await (P := Sample.platform) 2
         (constructor Sample.bad_then_good EndOfData)
       = Some ([Frame (Sample.JNumber 1)], g').
Proof.
  assert (Hbad : Sample.JSON_parse (trim (slice (trim (str "data: not-json")) 5))
                 = None) by reflexivity.
  split; [exact Hbad |].
  destruct (skipped_lines_do_not_stop_the_stream
              (P := Sample.platform) Sample.bad_then_good EndOfData
              [] (str "data: not-json") [str "data: 1"] 2)
    as [Hrun _].
  - reflexivity.
  - right. right. exact Hbad.
  - vm_compute. lia.
  - exact Hrun.
Defined.

End StreamParserFacts.


(* ===================================================================== *)
(** ** Properties of the orchestrator *)
(* ===================================================================== *)

Module IGPTFacts.

Import Js IGPT.

Section PostJson.

Context {P : StreamParser.Platform}.

(** C9. [_postJson] on what the executor returns. For a response: when
    its body is the text [text] and [JSON.parse(text)] is [v], the value
    [v] is returned; when [JSON.parse(text)] throws, or the body cannot be
    read, [{ error: "invalid_json_response" }] is returned. An error value
    of the executor is returned as it is, and [res.json()] is not
    reached. *)
Theorem postJson_parses_responses_and_passes_errors this body world :
  exists res tr,
    _execute this body world = Some (res, tr)
    /\ match res with
       | HttpClient.RetResponse response =>
           (forall text v,
               HttpClient.body response = HttpClient.BodyText text ->
               StreamParser.JSON_parse text = Some v ->
               _postJson this body world
               = Some (Parsed v, List.map Http tr ++ [ResJson]))
           /\ (forall text,
                  HttpClient.body response = HttpClient.BodyText text ->
                  StreamParser.JSON_parse text = None ->
                  _postJson this body world
                  = Some (Failed {| error := "invalid_json_response" |},
                          List.map Http tr ++ [ResJson]))
           /\ (HttpClient.body response = HttpClient.BodyUnreadable ->
               _postJson this body world
               = Some (Failed {| error := "invalid_json_response" |},
                       List.map Http tr ++ [ResJson]))
       | HttpClient.RetError e =>
           _postJson this body world = Some (Failed e, List.map Http tr)
           /\ ~ In ResJson (List.map Http tr)
       | HttpClient.RetUndefined =>
           _postJson this body world
           = Some (Failed {| error := "invalid_json_response" |},
                   List.map Http tr ++ [ResJson])
       end.
Proof.
  unfold _postJson, _execute.
  destruct (HttpClientFacts.request_returns
              (_http this)
              {| HttpClient.timeout :=
                   Some (if stream body then _streamTimeout this
                         else _timeout this) |}
              world) as (res & tr & E).
  exists res, tr. rewrite E. split; [reflexivity |].
  destruct res as [response | e |]; [| | reflexivity].
  - unfold json. split; [| split].
    + intros text v Hbody Hparse. rewrite Hbody, Hparse. reflexivity.
    + intros text Hbody Hparse. rewrite Hbody, Hparse. reflexivity.
    + intros Hbody. rewrite Hbody. reflexivity.
  - split.
    + apply HttpClientFacts.loop_error in E.
      destruct E as [-> | [-> | ->]]; reflexivity.
    + intros Hin. apply in_map_iff in Hin.
      destruct Hin as (ev & Hev & _). discriminate.
Qed.

End PostJson.

(** C10. A [retries], [backoffBase] or [backoffFactor] option that is 0
    or absent is replaced by 3, 100 and 2; so no options give an executor
    with zero retries. And the executor takes a [timeout] override that is
    0 or absent as no override: the deadline is the policy's. *)
Theorem falsy_options_get_the_defaults :
  (forall options,
      falsy (retries options) = true ->
      HttpClient._retries (_http (constructor options)) = 3)
  /\ (forall options,
         falsy (backoffBase options) = true ->
         HttpClient._backoffBase (_http (constructor options)) = 100)
  /\ (forall options,
         falsy (backoffFactor options) = true ->
         HttpClient._backoffFactor (_http (constructor options)) = 2)
  /\ (forall options, HttpClient._retries (_http (constructor options)) <> 0)
  /\ (forall this options,
         falsy (HttpClient.timeout options) = true ->
         HttpClient.reqTimeout this options = HttpClient._timeout this)
  /\ (forall this world,
         HttpClient.request this {| HttpClient.timeout := Some 0 |} world
         = HttpClient.request this {| HttpClient.timeout := None |} world).
Proof.
  assert (Hor : forall a b, falsy a = true -> or_default a b = b).
  { intros [v |] b H; simpl in *; [rewrite H |]; reflexivity. }
  repeat split.
  - intros options H. simpl. apply Hor. exact H.
  - intros options H. simpl. apply Hor. exact H.
  - intros options H. simpl. apply Hor. exact H.
  - intros options. simpl. unfold or_default.
    destruct (retries options) as [v |]; [| discriminate].
    destruct (Z.eqb_spec v 0); [discriminate | assumption].
  - intros this options H. unfold HttpClient.reqTimeout. apply Hor. exact H.
Qed.

#[local] Existing Instance Sample.platform.

(** *** Runs on concrete transports *)

Example postJson_ok :
  _postJson
    (constructor {| retries := None; backoffBase := None; backoffFactor := None |})
    {| stream := false |} Sample.ok_a1
  = Some (Parsed
                 (Sample.JObject [(str "a", Sample.JNumber 1)]),
          [Http (HttpClient.SetTimeout 60000); Http (HttpClient.Fetch 0);
           Http HttpClient.ClearTimeout; ResJson]).
Proof. reflexivity. Qed.

Example postJson_not_json :
  _postJson
    (constructor {| retries := None; backoffBase := None; backoffFactor := None |})
    {| stream := false |} (fun _ => Sample.respond 200 "<html>")
  = Some (Failed {| error := "invalid_json_response" |},
          [Http (HttpClient.SetTimeout 60000); Http (HttpClient.Fetch 0);
           Http HttpClient.ClearTimeout; ResJson]).
Proof. reflexivity. Qed.

Example constructor_defaults :
  _http (constructor {| retries := Some 0; backoffBase := None;
                        backoffFactor := Some 3 |})
  = HttpClient.constructor 3 100 3 60000.
Proof. reflexivity. Qed.

(** *** The theorems at concrete inputs *)

Lemma postJson_parses_responses_and_passes_errors_witness :
  StreamParser.JSON_parse (str ("{" ++ DQ ++ "a" ++ DQ ++ ":1}"))
  = Some (Sample.JObject [(str "a", Sample.JNumber 1)])
  /\ StreamParser.JSON_parse (str "<html>") = None
  /\ (exists tr,
         _postJson (constructor
                      {| retries := None; backoffBase := None; backoffFactor := None |})
                   {| stream := false |} Sample.ok_a1
         = Some (Parsed (Sample.JObject [(str "a", Sample.JNumber 1)]), tr))
  /\ (exists tr,
         _postJson (constructor
                      {| retries := None; backoffBase := None; backoffFactor := None |})
                   {| stream := false |} (fun _ => Sample.respond 200 "<html>")
         = Some (Failed {| error := "invalid_json_response" |}, tr))
  /\ (exists tr,
         _postJson (constructor
                      {| retries := None; backoffBase := None; backoffFactor := None |})
                   {| stream := false |}
                   (fun _ => HttpClient.Fulfilled
                               {| HttpClient.status := 200;
                                  HttpClient.body := HttpClient.BodyUnreadable |})
         = Some (Failed {| error := "invalid_json_response" |}, tr))
  /\ (exists tr,
         _postJson (constructor
                      {| retries := None; backoffBase := None; backoffFactor := None |})
                   {| stream := false |} Sample.always_late
         = Some (Failed {| error := "timeout" |}, tr)).
Proof.
  assert (Hok : StreamParser.JSON_parse (str ("{" ++ DQ ++ "a" ++ DQ ++ ":1}"))
                = Some (Sample.JObject [(str "a", Sample.JNumber 1)]))
    by reflexivity.
  assert (Hbad : StreamParser.JSON_parse (str "<html>") = None) by reflexivity.
  split; [exact Hok |]. split; [exact Hbad |].
  split; [| split; [| split]].
  - destruct (postJson_parses_responses_and_passes_errors
                (constructor {| retries := None; backoffBase := None;
                                backoffFactor := None |})
                {| stream := false |} Sample.ok_a1)
      as (res & tr & E & H).
    vm_compute in E. injection E as <- <-.
    destruct H as (Hparsed & _ & _).
    eexists. exact (Hparsed _ _ eq_refl Hok).
  - destruct (postJson_parses_responses_and_passes_errors
                (constructor {| retries := None; backoffBase := None;
                                backoffFactor := None |})
                {| stream := false |} (fun _ => Sample.respond 200 "<html>"))
      as (res & tr & E & H).
    vm_compute in E. injection E as <- <-.
    destruct H as (_ & Hthrows & _).
    eexists. exact (Hthrows _ eq_refl Hbad).
  - destruct (postJson_parses_responses_and_passes_errors
                (constructor {| retries := None; backoffBase := None;
                                backoffFactor := None |})
                {| stream := false |}
                (fun _ => HttpClient.Fulfilled
                            {| HttpClient.status := 200;
                               HttpClient.body := HttpClient.BodyUnreadable |}))
      as (res & tr & E & H).
    vm_compute in E. injection E as <- <-.
    destruct H as (_ & _ & Hunreadable).
    eexists. exact (Hunreadable eq_refl).
  - destruct (postJson_parses_responses_and_passes_errors
                (constructor {| retries := None; backoffBase := None;
                                backoffFactor := None |})
                {| stream := false |} Sample.always_late)
      as (res & tr & E & H).
    vm_compute in E. injection E as <- <-.
    eexists. exact (proj1 H).
Defined.

Lemma falsy_options_get_the_defaults_witness :
  falsy (Some 0) = true
  /\ HttpClient._retries
       (_http (constructor {| retries := Some 0; backoffBase := Some 0;
                              backoffFactor := None |})) = 3
  /\ HttpClient.reqTimeout Sample.policy {| HttpClient.timeout := Some 0 |}
     = 60000.
Proof.
  destruct falsy_options_get_the_defaults as (Hr & _ & _ & _ & Ht & _).
  split; [reflexivity |]. split.
  - apply Hr. reflexivity.
  - apply (Ht Sample.policy {| HttpClient.timeout := Some 0 |}). reflexivity.
Defined.

End IGPTFacts.


(* ===================================================================== *)
(** ** More properties of the retrying executor *)
(* ===================================================================== *)

Module HttpClientMore.

Import HttpClient HttpClientTrace.

Section Runs.

Variable this : t.
Variable options : RequestOptions.
Variable world : World.

Local Abbreviation T := (reqTimeout this options).
Local Abbreviation backoff attempt :=
  (_backoffBase this * _backoffFactor this ^ attempt).

(** Induction over the iterations of a run. *)
Lemma loop_run_ind (Q : Z -> Returned -> list Event -> Prop) :
  (forall a, _retries this < a -> Q a RetUndefined []) ->
  (forall a r,
      a <= _retries this ->
      try_catch this world a = Return r ->
      Q a r [SetTimeout T; Fetch a; ClearTimeout]) ->
  (forall a r tr,
      a < _retries this ->
      try_catch this world a = FallThrough ->
      Q (a + 1) r tr ->
      Q a r ([SetTimeout T; Fetch a; ClearTimeout; Sleep (backoff a)] ++ tr)) ->
  forall fuel a r tr,
    loop this options world fuel a = Some (r, tr) -> Q a r tr.
Proof.
  intros Hend Hret Hfall.
  induction fuel as [| fuel IH]; intros a r tr E.
  - destruct (Z.le_gt_cases a (_retries this)) as [Hle | Hgt].
    + rewrite HttpClientFacts.loop_no_fuel in E by exact Hle. discriminate.
    + rewrite HttpClientFacts.loop_past_end in E by exact Hgt.
      injection E as <- <-. apply Hend. exact Hgt.
  - destruct (Z.le_gt_cases a (_retries this)) as [Hle | Hgt].
    2:{ rewrite HttpClientFacts.loop_past_end in E by exact Hgt.
        injection E as <- <-. apply Hend. exact Hgt. }
    rewrite HttpClientFacts.loop_iteration in E by exact Hle.
    destruct (try_catch this world a) as [r0 |] eqn:Hv.
    + injection E as <- <-. apply Hret; assumption.
    + destruct (loop this options world fuel (a + 1)) as [[r' tr'] |] eqn:E';
        [| discriminate].
      injection E as <- <-.
      apply Hfall; [| exact Hv | apply IH; exact E'].
      assert (a <> _retries this)
        by (intros ->; exact (HttpClientFacts.try_catch_last this world Hv)).
      lia.
Qed.

(** The attempts of a run from [a] on and the waits between them. *)
Lemma loop_schedule fuel a r tr :
  loop this options world fuel a = Some (r, tr) ->
  exists m : nat,
    (forall pending,
        waits_from pending tr
        = match m with
          | O => []
          | S m' =>
              (a, pending)
              :: List.map (fun j => (a + Z.of_nat j,
                                     [backoff (a + Z.of_nat j - 1)]))
                          (seq 1 m')
          end)
    /\ Z.of_nat m <= Z.max 0 (_retries this + 1 - a).
Proof.
  revert fuel a r tr.
  apply (loop_run_ind
           (fun a r tr =>
              exists m : nat,
                (forall pending,
                    waits_from pending tr
                    = match m with
                      | O => []
                      | S m' =>
                          (a, pending)
                          :: List.map (fun j => (a + Z.of_nat j,
                                                 [backoff (a + Z.of_nat j - 1)]))
                                      (seq 1 m')
                      end)
                /\ Z.of_nat m <= Z.max 0 (_retries this + 1 - a))).
  - intros a Hgt. exists 0%nat. split; [reflexivity | lia].
  - intros a r Hle Hv. exists 1%nat. split; [reflexivity | lia].
  - intros a r tr Hlt Hv (m' & Hwaits & Hbound).
    exists (S m'). split; [| lia].
    intros pending.
    change (waits_from pending
              ([SetTimeout T; Fetch a; ClearTimeout; Sleep (backoff a)] ++ tr))
      with ((a, pending) :: waits_from [backoff a] tr).
    rewrite Hwaits. destruct m' as [| m'']; [reflexivity |].
    change (seq 1 (S m'')) with (1%nat :: seq 2 m'').
    rewrite <- (seq_shift m'' 1). cbn [List.map]. rewrite map_map.
    replace (a + Z.of_nat 1) with (a + 1) by lia.
    replace (a + 1 - 1) with a by lia.
    do 2 f_equal.
    apply map_ext. intros j.
    replace (a + 1 + Z.of_nat j) with (a + Z.of_nat (S j)) by lia.
    reflexivity.
Qed.

Lemma schedule_from_0 (m : nat) :
  match m with
  | O => []
  | S m' =>
      (0, [])
      :: List.map (fun j => (0 + Z.of_nat j, [backoff (0 + Z.of_nat j - 1)]))
                  (seq 1 m')
  end
  = schedule this m.
Proof.
  destruct m as [| m']; [reflexivity |].
  unfold schedule. change (seq 0 (S m')) with (0%nat :: seq 1 m').
  cbn [List.map]. change (Z.of_nat 0) with 0. f_equal.
  apply map_ext_in. intros j Hj. apply in_seq in Hj.
  destruct j as [| j']; [lia |].
  replace (0 + Z.of_nat (S j') - 1) with (Z.of_nat j') by lia.
  reflexivity.
Qed.

Lemma fall_through_of_transient a :
  a <> _retries this ->
  transient (world a) = true ->
  try_catch this world a = FallThrough.
Proof.
  intros Hne Ht. unfold try_catch, transient in *.
  apply Z.eqb_neq in Hne. rewrite Hne.
  destruct (world a) as [response | name aborted].
  - rewrite Ht. reflexivity.
  - apply negb_true_iff in Ht. rewrite Ht. reflexivity.
Qed.

(** A run goes through the attempts that end in a transient outcome and
    returns at the first attempt whose [try]/[catch] returns. *)
Lemma loop_first_return (m : nat) :
  forall fuel a r,
    a + Z.of_nat m <= _retries this ->
    (forall j, a <= j < a + Z.of_nat m -> transient (world j) = true) ->
    try_catch this world (a + Z.of_nat m) = Return r ->
    (m < fuel)%nat ->
    exists tr,
      loop this options world fuel a = Some (r, tr)
      /\ forall pending,
           List.map fst (waits_from pending tr)
           = List.map (fun j => a + Z.of_nat j) (seq 0 (S m)).
Proof.
  induction m as [| m IH]; intros fuel a r Hle Htrans Hret Hfuel.
  - destruct fuel as [| fuel]; [lia |].
    replace (a + Z.of_nat 0) with a in * by lia.
    exists [SetTimeout T; Fetch a; ClearTimeout]. split.
    + rewrite HttpClientFacts.loop_iteration by exact Hle.
      rewrite Hret. reflexivity.
    + intros pending. simpl. f_equal. lia.
  - destruct fuel as [| fuel]; [lia |].
    destruct (IH fuel (a + 1) r) as (tr & E & Hatt).
    + lia.
    + intros j Hj. apply Htrans. lia.
    + replace (a + 1 + Z.of_nat m) with (a + Z.of_nat (S m)) by lia.
      exact Hret.
    + lia.
    + exists ([SetTimeout T; Fetch a; ClearTimeout; Sleep (backoff a)] ++ tr).
      split.
      * rewrite HttpClientFacts.loop_iteration by lia.
        rewrite fall_through_of_transient; [| lia | apply Htrans; lia].
        rewrite E. reflexivity.
      * intros pending.
        change (waits_from pending
                  ([SetTimeout T; Fetch a; ClearTimeout; Sleep (backoff a)] ++ tr))
          with ((a, pending) :: waits_from [backoff a] tr).
        cbn [List.map fst]. rewrite Hatt.
        change (seq 0 (S (S m))) with (0%nat :: seq 1 (S m)).
        rewrite <- (seq_shift (S m) 0). cbn [List.map]. rewrite map_map.
        f_equal; [lia |].
        apply map_ext. intros j. lia.
Qed.

(** Every deadline of a run is armed with the same [reqTimeout]. *)
Lemma loop_deadlines fuel a r tr :
  loop this options world fuel a = Some (r, tr) ->
  forall ms, In (SetTimeout ms) tr -> ms = T.
Proof.
  revert fuel a r tr.
  apply (loop_run_ind (fun _ _ tr => forall ms, In (SetTimeout ms) tr -> ms = T)).
  - intros a _ ms [].
  - intros a r _ _ ms Hin. simpl in Hin.
    destruct Hin as [H | [H | [H | []]]]; try discriminate.
    injection H as <-. reflexivity.
  - intros a r tr _ _ IH ms Hin. simpl in Hin.
    destruct Hin as [H | [H | [H | [H | Hin]]]]; try discriminate.
    + injection H as <-. reflexivity.
    + apply IH. exact Hin.
Qed.

End Runs.

(** X1. In every run, whatever the transport does, the attempts are
    [0, 1, ..., m-1] in this order, at most [_retries + 1] of them, no wait
    precedes attempt 0 and exactly one wait of
    [backoffBase * backoffFactor ^ (k-1)] precedes each attempt [k >= 1]. *)
Theorem attempts_follow_the_backoff_schedule this options world :
  exists r tr m,
    request this options world = Some (r, tr)
    /\ waits tr = schedule this m
    /\ Z.of_nat m <= Z.max 0 (_retries this + 1).
Proof.
  destruct (HttpClientFacts.request_returns this options world) as (r & tr & E).
  destruct (loop_schedule this options world _ _ _ _ E) as (m & Hwaits & Hm).
  exists r, tr, m. split; [exact E |]. split.
  - unfold waits. rewrite Hwaits. apply schedule_from_0.
  - replace (_retries this + 1 - 0) with (_retries this + 1) in Hm by lia.
    exact Hm.
Qed.

(** X2. In every run each deadline that is armed is cleared before the
    next deadline is armed, before any backoff wait and before [request]
    returns; a fetch is only issued under a pending deadline. *)
Theorem every_deadline_is_cleared this options world :
  exists r tr,
    request this options world = Some (r, tr)
    /\ timers_ok false tr = true.
Proof.
  destruct (HttpClientFacts.request_returns this options world) as (r & tr & E).
  exists r, tr. split; [exact E |].
  revert E. unfold request.
  apply (loop_run_ind this options world
           (fun _ _ tr => timers_ok false tr = true)).
  - reflexivity.
  - reflexivity.
  - intros a r' tr' _ _ IH. simpl. exact IH.
Qed.

(** X4. A response with a status that is neither 5xx nor 429, received at
    attempt [k <= _retries] after [k] attempts that each ended in a
    transient outcome (5xx, 429, own deadline, transport failure), is what
    [request] returns, after exactly the attempts [0 .. k]. *)
Theorem response_after_transient_failures this options world k response :
  0 <= k <= _retries this ->
  (forall j, 0 <= j < k -> transient (world j) = true) ->
  world k = Fulfilled response ->
  isRetryableStatus response = false ->
  exists tr,
    request this options world = Some (RetResponse response, tr)
    /\ attempts tr = List.map Z.of_nat (seq 0 (S (Z.to_nat k))).
Proof.
  intros Hk Htrans Hw Hr.
  destruct (loop_first_return this options world (Z.to_nat k)
              (Z.to_nat (_retries this + 1)) 0 (RetResponse response))
    as (tr & E & Hatt).
  - lia.
  - intros j Hj. apply Htrans. lia.
  - replace (0 + Z.of_nat (Z.to_nat k)) with k by lia.
    unfold try_catch. rewrite Hw, Hr. reflexivity.
  - lia.
  - exists tr. split; [exact E |].
    unfold attempts, waits. rewrite Hatt. apply map_ext. intros j. lia.
Qed.

(** X5. For [_retries >= 0], when every attempt is rejected and none of the
    rejections is a cancellation the attempt did not arm, [request] makes
    all [_retries + 1] attempts and returns [{ error: "timeout" }] if the
    last rejection is the AbortError of its own deadline, and
    [{ error: "network_error" }] otherwise. *)
Theorem rejections_use_all_attempts this options world :
  0 <= _retries this ->
  (forall k, 0 <= k <= _retries this ->
             exists name aborted,
               world k = Rejected name aborted
               /\ String.eqb name "AbortError" && negb aborted = false) ->
  exists name aborted tr,
    world (_retries this) = Rejected name aborted
    /\ request this options world
       = Some (RetError {| error := if String.eqb name "AbortError" && aborted
                                    then "timeout" else "network_error" |},
               tr)
    /\ List.length (attempts tr) = Z.to_nat (_retries this + 1).
Proof.
  intros Hn Hrej.
  destruct (Hrej (_retries this)) as (name & aborted & Hw & Hnot); [lia |].
  destruct (loop_first_return this options world (Z.to_nat (_retries this))
              (Z.to_nat (_retries this + 1)) 0
              (RetError {| error := if String.eqb name "AbortError" && aborted
                                    then "timeout" else "network_error" |}))
    as (tr & E & Hatt).
  - lia.
  - intros j Hj. destruct (Hrej j) as (n' & a' & Hwj & Hnj); [lia |].
    unfold transient. rewrite Hwj, Hnj. reflexivity.
  - replace (0 + Z.of_nat (Z.to_nat (_retries this))) with (_retries this) by lia.
    unfold try_catch. rewrite Hw, Hnot, Z.eqb_refl.
    destruct (String.eqb name "AbortError" && aborted); reflexivity.
  - lia.
  - exists name, aborted, tr. split; [exact Hw |]. split; [exact E |].
    unfold attempts, waits. rewrite length_map.
    rewrite <- (length_map fst), Hatt, length_map, length_seq. lia.
Qed.

(** X6. What [request] returns comes from an attempt of the run: a
    response is the one the transport gave at an attempt, never an error
    made from a status; an error is the classification of a rejection at
    an attempt; [undefined] is returned exactly when [_retries] is
    negative, and then nothing is sent. *)
Theorem returned_value_comes_from_an_attempt this options world :
  exists r tr,
    request this options world = Some (r, tr)
    /\ match r with
       | RetResponse response =>
           exists k, In (Fetch k) tr /\ world k = Fulfilled response
       | RetError e =>
           exists k name aborted,
             In (Fetch k) tr
             /\ world k = Rejected name aborted
             /\ e = error_of_rejection name aborted
       | RetUndefined => _retries this < 0 /\ tr = []
       end
    /\ (_retries this < 0 -> r = RetUndefined).
Proof.
  destruct (HttpClientFacts.request_returns this options world) as (r & tr & E).
  exists r, tr. split; [exact E |]. split.
  - assert (H : match r with
                | RetResponse response =>
                    exists k, In (Fetch k) tr /\ world k = Fulfilled response
                | RetError e =>
                    exists k name aborted,
                      In (Fetch k) tr
                      /\ world k = Rejected name aborted
                      /\ e = error_of_rejection name aborted
                | RetUndefined => _retries this < 0 /\ tr = []
                end).
    { revert E. unfold request.
      apply (loop_run_ind this options world
               (fun a r tr =>
                  match r with
                  | RetResponse response =>
                      exists k, In (Fetch k) tr /\ world k = Fulfilled response
                  | RetError e =>
                      exists k name aborted,
                        In (Fetch k) tr
                        /\ world k = Rejected name aborted
                        /\ e = error_of_rejection name aborted
                  | RetUndefined => _retries this < a /\ tr = []
                  end)).
      - intros a Hgt. split; [exact Hgt | reflexivity].
      - intros a r' Hle Hv. unfold try_catch in Hv.
        destruct (world a) as [response | name aborted] eqn:Hw.
        + destruct (negb (isRetryableStatus response) || (a =? _retries this));
            [| discriminate].
          injection Hv as <-. exists a. split; [simpl; auto | exact Hw].
        + unfold error_of_rejection.
          destruct (String.eqb name "AbortError" && negb aborted) eqn:Hc.
          * injection Hv as <-. exists a, name, aborted.
            rewrite Hc. repeat split; [simpl; auto | exact Hw].
          * destruct (a =? _retries this); [| discriminate].
            destruct (String.eqb name "AbortError" && aborted) eqn:Hd;
              injection Hv as <-; exists a, name, aborted;
              rewrite Hc, Hd; repeat split; simpl; auto.
      - intros a r' tr' Hlt _ IH.
        destruct r' as [response | e |].
        + destruct IH as (k & Hin & Hw). exists k.
          split; [simpl; auto 10 | exact Hw].
        + destruct IH as (k & name & aborted & Hin & Hw & He).
          exists k, name, aborted. split; [simpl; auto 10 | auto].
        + destruct IH as [Hgt _]. lia. }
    exact H.
  - intros Hneg. unfold request in E.
    rewrite HttpClientFacts.loop_past_end in E by lia.
    injection E as <- _. reflexivity.
Qed.

(** *** The theorems at concrete inputs *)

Lemma response_after_transient_failures_witness :
  0 <= 2 <= _retries Sample.policy
  /\ (forall j, 0 <= j < 2 ->
        transient
          ((fun k => if k =? 0 then Sample.respond 503 "busy"
                     else if k =? 1 then TransportFails
                          else Sample.respond 200 "{}") j) = true)
  /\ exists tr,
       request Sample.policy Sample.no_override
         (fun k => if k =? 0 then Sample.respond 503 "busy"
                   else if k =? 1 then TransportFails
                        else Sample.respond 200 "{}")
       = Some (RetResponse {| status := 200; body := BodyText (Js.str "{}") |}, tr)
       /\ attempts tr = [0; 1; 2].
Proof.
  assert (H0 : 0 <= 2 <= _retries Sample.policy) by (simpl; lia).
  assert (H1 : forall j, 0 <= j < 2 ->
                 transient
                   ((fun k => if k =? 0 then Sample.respond 503 "busy"
                              else if k =? 1 then TransportFails
                                   else Sample.respond 200 "{}") j) = true).
  { intros j Hj. assert (Hc : j = 0 \/ j = 1) by lia.
    destruct Hc as [-> | ->]; reflexivity. }
  split; [exact H0 |]. split; [exact H1 |].
  apply (response_after_transient_failures
           Sample.policy Sample.no_override _ 2 _ H0 H1); reflexivity.
Defined.

Lemma rejections_use_all_attempts_witness :
  0 <= _retries Sample.policy
  /\ exists name aborted tr,
       TransportFails = Rejected name aborted
       /\ request Sample.policy Sample.no_override (fun _ => TransportFails)
          = Some (RetError {| error := if String.eqb name "AbortError" && aborted
                                       then "timeout" else "network_error" |},
                  tr)
       /\ List.length (attempts tr) = Z.to_nat (_retries Sample.policy + 1).
Proof.
  assert (H0 : 0 <= _retries Sample.policy) by (simpl; lia).
  split; [exact H0 |].
  apply (rejections_use_all_attempts
           Sample.policy Sample.no_override (fun _ => TransportFails) H0).
  intros k _. exists "TypeError"%string, false. split; reflexivity.
Defined.

End HttpClientMore.


(* ===================================================================== *)
(** ** More properties of the stream decoder *)
(* ===================================================================== *)

Module StreamParserMore.

Import Js StreamParser StreamParserRuns.

(** *** Line feeds and complete lines *)

Lemma complete_lines_nil_iff s : complete_lines s = [] <-> ~ In LF s.
Proof.
  induction s as [| c s IH].
  - split; [intros _ [] | reflexivity].
  - destruct (N.eqb_spec c LF) as [-> | Hc].
    + rewrite StreamParserFacts.complete_lines_LF. split.
      * discriminate.
      * intros H. exfalso. apply H. left. reflexivity.
    + rewrite StreamParserFacts.complete_lines_other by exact Hc. split.
      * intros H [Heq | Hin]; [congruence |].
        destruct (complete_lines s); [| discriminate].
        apply IH; [reflexivity | exact Hin].
      * intros H.
        assert (Hs : complete_lines s = [])
          by (apply IH; intros Hin; apply H; right; exact Hin).
        rewrite Hs. reflexivity.
Qed.

(** *** [trim] *)

Lemma trimStart_allWhiteSpace s :
  allWhiteSpace s = true -> trimStart s = [].
Proof.
  induction s as [| c s IH]; [reflexivity |].
  simpl. intros H. apply andb_true_iff in H. destruct H as [Hc Hs].
  rewrite Hc. apply IH. exact Hs.
Qed.

Lemma trimStart_app a b :
  trimStart (a ++ b)
  = if allWhiteSpace a then trimStart b else trimStart a ++ b.
Proof.
  induction a as [| c a IH]; [reflexivity |].
  simpl. destruct (isWhiteSpace c); [exact IH | reflexivity].
Qed.

Lemma allWhiteSpace_rev s : allWhiteSpace (rev s) = allWhiteSpace s.
Proof.
  unfold allWhiteSpace. induction s as [| c s IH]; [reflexivity |].
  simpl. rewrite forallb_app, IH. simpl.
  rewrite andb_true_r. apply andb_comm.
Qed.

Lemma trimEnd_allWhiteSpace s :
  allWhiteSpace s = true -> trimEnd s = [].
Proof.
  intros H. unfold trimEnd.
  rewrite trimStart_allWhiteSpace; [reflexivity |].
  rewrite allWhiteSpace_rev. exact H.
Qed.

Lemma trimEnd_app a b :
  trimEnd (a ++ b)
  = if allWhiteSpace b then trimEnd a else a ++ trimEnd b.
Proof.
  unfold trimEnd. rewrite rev_app_distr, trimStart_app, allWhiteSpace_rev.
  destruct (allWhiteSpace b); [reflexivity |].
  rewrite rev_app_distr, rev_involutive. reflexivity.
Qed.

Lemma trimStart_idempotent s : trimStart (trimStart s) = trimStart s.
Proof.
  induction s as [| c s IH]; [reflexivity |].
  simpl. destruct (isWhiteSpace c) eqn:Hc; [exact IH |].
  simpl. rewrite Hc. reflexivity.
Qed.

Lemma trimEnd_idempotent s : trimEnd (trimEnd s) = trimEnd s.
Proof.
  unfold trimEnd. rewrite rev_involutive, trimStart_idempotent. reflexivity.
Qed.

Lemma trimEnd_cons c s :
  trimEnd (c :: s)
  = if allWhiteSpace s
    then (if isWhiteSpace c then [] else [c])
    else c :: trimEnd s.
Proof.
  change (c :: s) with ([c] ++ s). rewrite trimEnd_app.
  destruct (allWhiteSpace s); [| reflexivity].
  unfold trimEnd. simpl. destruct (isWhiteSpace c); reflexivity.
Qed.

Lemma trimStart_trimEnd s : trimStart (trimEnd s) = trimEnd (trimStart s).
Proof.
  induction s as [| c s IH]; [reflexivity |].
  rewrite trimEnd_cons. simpl trimStart at 2.
  destruct (isWhiteSpace c) eqn:Hc.
  - destruct (allWhiteSpace s) eqn:Hs.
    + rewrite (trimStart_allWhiteSpace s Hs). reflexivity.
    + simpl. rewrite Hc. exact IH.
  - rewrite trimEnd_cons.
    destruct (allWhiteSpace s); simpl; rewrite Hc; reflexivity.
Qed.

(** Padding around a text does not change what [trim] gives. *)
Lemma trim_padding pre s post :
  allWhiteSpace pre = true ->
  allWhiteSpace post = true ->
  trim (pre ++ s ++ post) = trim s.
Proof.
  intros Hpre Hpost. unfold trim.
  rewrite trimStart_app, Hpre.
  rewrite <- !trimStart_trimEnd, trimEnd_app, Hpost. reflexivity.
Qed.

Lemma trimStart_not_white c s :
  isWhiteSpace c = false -> trimStart (c :: s) = c :: s.
Proof. intros H. simpl. rewrite H. reflexivity. Qed.

Lemma startsWith_app p s : startsWith (p ++ s) p = true.
Proof.
  induction p as [| c p IH]; [destruct s; reflexivity |].
  simpl. rewrite N.eqb_refl. exact IH.
Qed.

(** [trim] of a line that begins with the marker. *)
Lemma trim_marker rest :
  trim (str "data:" ++ rest) = str "data:" ++ trimEnd rest.
Proof.
  unfold trim.
  assert (Hstart : trimStart (str "data:" ++ rest) = str "data:" ++ rest)
    by reflexivity.
  rewrite Hstart, trimEnd_app.
  destruct (allWhiteSpace rest) eqn:Hr; [| reflexivity].
  rewrite (trimEnd_allWhiteSpace rest Hr). reflexivity.
Qed.

(** *** The iteration *)

Section Iteration.

Context {P : Platform}.

Lemma next_consistent g : consistent g -> consistent (fst (next g)).
Proof.
  intros Hg. pose proof (StreamParserFacts.next_spec g Hg) as H.
  destruct (next g) as [g' [y |]]; simpl; apply H.
Qed.

Lemma nexts_consistent n g : consistent g -> consistent (nexts n g).
Proof.
  revert g. induction n as [| n IH]; intros g Hg; [exact Hg |].
  simpl. apply IH, next_consistent, Hg.
Qed.

Lemma frames_In_inv lines y :
  In y (frames lines) ->
  exists raw v, y = Frame v /\ In raw lines /\ frame raw = Some v.
Proof.
  induction lines as [| raw lines IH]; [intros [] |].
  simpl. destruct (frame raw) as [v |] eqn:Hf.
  - intros [<- | Hin].
    + exists raw, v. auto.
    + destruct (IH Hin) as (raw' & v' & Hy & Hin' & Hf').
      exists raw', v'. auto.
  - intros Hin. destruct (IH Hin) as (raw' & v' & Hy & Hin' & Hf').
    exists raw', v'. auto.
Qed.

Lemma frame_Some_inv raw v :
  frame raw = Some v ->
  startsWith (trim raw) (str "data:") = true
  /\ isEmpty (trim (slice (trim raw) 5)) = false
  /\ JSON_parse (trim (slice (trim raw) 5)) = Some v.
Proof.
  unfold frame.
  destruct (startsWith (trim raw) (str "data:")); [| discriminate].
  destruct (isEmpty (trim (slice (trim raw) 5))); [discriminate |].
  auto.
Qed.

(** X7. At every point of an iteration, after any number of [next()]
    calls, [_buffer] holds no line feed, and [releaseLock()] has been
    called once if the body has ended and not at all before. *)
Theorem buffer_holds_no_complete_line body e n :
  ~ In LF (_buffer (nexts n (constructor body e)))
  /\ releaseLock_calls (_reader (nexts n (constructor body e)))
     = match control (nexts n (constructor body e)) with
       | Completed => 1%nat
       | _ => 0%nat
       end.
Proof.
  destruct (nexts_consistent n (constructor body e)
              (StreamParserFacts.constructor_consistent body e))
    as (Hb & Hcalls & _).
  split; [apply complete_lines_nil_iff; exact Hb | exact Hcalls].
Qed.

(** X8. Text that arrives after the last line feed is never yielded: a
    last chunk whose decoded text holds no line feed leaves the sequence
    as it is without that chunk, even when the source then ends. *)
Theorem unterminated_last_line_is_not_yielded body last e fuel :
  ~ In LF (snd (decode (fst (decode decoder_init (List.concat body))) last)) ->
  (List.length (values_of (List.concat body) e) < fuel)%nat ->
  exists g',
    for_await fuel (constructor (body ++ [last]) e)
    = Some (values_of (List.concat body) e, g').
Proof.
  intros Hlast Hfuel.
  assert (Hvalues : values_of (List.concat (body ++ [last])) e
                    = values_of (List.concat body) e).
  { unfold values_of, text_of.
    rewrite concat_app. simpl List.concat. rewrite app_nil_r.
    rewrite StreamParserFacts.decode_app. cbn [snd].
    rewrite StreamParserFacts.complete_lines_app.
    replace (complete_lines
               (partial_line (snd (decode decoder_init (List.concat body)))
                ++ snd (decode (fst (decode decoder_init (List.concat body)))
                               last)))
      with (@nil jsstring).
    - rewrite app_nil_r. reflexivity.
    - symmetry. apply complete_lines_nil_iff. intros Hin.
      apply in_app_or in Hin. destruct Hin as [Hin | Hin].
      + revert Hin. apply complete_lines_nil_iff.
        apply StreamParserFacts.complete_lines_partial_line.
      + exact (Hlast Hin). }
  destruct (StreamParserFacts.for_await_constructor (body ++ [last]) e fuel)
    as (g' & E & _).
  - rewrite Hvalues. exact Hfuel.
  - exists g'. rewrite E, Hvalues. reflexivity.
Qed.

(** X9. A consumer that leaves the loop at the value of index [n] has
    received exactly the first [n + 1] values of the whole sequence (all of
    them when there are fewer), and the body has ended. *)
Theorem break_yields_a_prefix body e n :
  fst (for_await_break n (constructor body e))
  = firstn (S n) (values_of (List.concat body) e)
  /\ control (snd (for_await_break n (constructor body e))) = Completed.
Proof.
  destruct (StreamParserFacts.for_await_break_spec n (constructor body e))
    as (Hv & _ & Hc).
  - apply StreamParserFacts.constructor_consistent.
  - discriminate.
  - split; [exact Hv | exact Hc].
Qed.

(** X10. Every value of an iteration has its origin in the stream: a
    frame is what [JSON.parse] gives for the trimmed text after the
    marker of a complete line that begins with [data:] once trimmed; the
    error value only appears when a read failed. *)
Theorem yielded_values_come_from_complete_lines body e fuel :
  (List.length (values_of (List.concat body) e) < fuel)%nat ->
  exists ys g',
    for_await fuel (constructor body e) = Some (ys, g')
    /\ forall y, In y ys ->
         (exists raw v,
             y = Frame v
             /\ In raw (complete_lines (text_of (List.concat body)))
             /\ startsWith (trim raw) (str "data:") = true
             /\ isEmpty (trim (slice (trim raw) 5)) = false
             /\ JSON_parse (trim (slice (trim raw) 5)) = Some v)
         \/ (y = Failure {| error := "network_error" |} /\ e = ReadFails).
Proof.
  intros Hfuel.
  destruct (StreamParserFacts.for_await_constructor body e fuel Hfuel)
    as (g' & E & _).
  exists (values_of (List.concat body) e), g'. split; [exact E |].
  intros y Hin. unfold values_of in Hin. apply in_app_or in Hin.
  destruct Hin as [Hin | Hin].
  - left. destruct (frames_In_inv _ _ Hin) as (raw & v & Hy & Hraw & Hf).
    destruct (frame_Some_inv raw v Hf) as (H1 & H2 & H3).
    exists raw, v. auto.
  - right. destruct e; simpl in Hin; [destruct Hin |].
    destruct Hin as [<- | []]. auto.
Qed.

(** X11. White space around a line does not change what the line yields:
    a carriage return left by a CRLF line ending, indentation or trailing
    blanks are ignored. *)
Theorem padding_around_a_line_is_ignored pre raw post :
  allWhiteSpace pre = true ->
  allWhiteSpace post = true ->
  frame (pre ++ raw ++ post) = frame raw.
Proof.
  intros Hpre Hpost. unfold frame.
  rewrite (trim_padding pre raw post Hpre Hpost). reflexivity.
Qed.

(** X12. A line that begins with [data:] yields what [JSON.parse] gives
    for the rest of the line trimmed, whether or not a space follows the
    colon, and nothing when that rest is empty or white space. *)
Theorem marker_line_yields_its_trimmed_payload rest :
  frame (str "data:" ++ rest)
  = if isEmpty (trim rest) then None else JSON_parse (trim rest).
Proof.
  unfold frame. rewrite trim_marker, startsWith_app.
  assert (Hslice : slice (str "data:" ++ trimEnd rest) 5 = trimEnd rest)
    by reflexivity.
  rewrite Hslice.
  assert (Htrim : trim (trimEnd rest) = trim rest).
  { unfold trim. rewrite trimStart_trimEnd, trimEnd_idempotent. reflexivity. }
  rewrite Htrim. reflexivity.
Qed.

(** X21. [next()] reads no further than it must: when the first chunk
    completes a line that carries a frame, the first [next()] yields the
    first such frame and leaves every later chunk unread. *)
Theorem next_reads_no_chunk_ahead value body e y ys :
  frames (complete_lines (snd (decode decoder_init value))) = y :: ys ->
  snd (next (constructor (value :: body) e)) = Value y
  /\ chunks (_reader (fst (next (constructor (value :: body) e)))) = body.
Proof.
  intros Hframes.
  unfold next, constructor, resume_while. simpl.
  destruct (decode decoder_init value) as [d' text] eqn:Ed.
  simpl in Hframes.
  remember (pop (split text LF)) as popped eqn:Epop.
  destruct popped as [last lines'].
  assert (Hlines : complete_lines text = lines')
    by (unfold complete_lines; rewrite <- Epop; reflexivity).
  rewrite Hlines in Hframes.
  pose proof (StreamParserFacts.for_lines_frames lines') as Hf.
  destruct (for_lines lines') as [[v rest] |].
  - rewrite Hf in Hframes. injection Hframes as <- _.
    split; reflexivity.
  - rewrite Hf in Hframes. discriminate.
Qed.

End Iteration.

(** *** The theorems on concrete streams *)

#[local] Existing Instance Sample.platform.

Lemma unterminated_last_line_is_not_yielded_witness :
  ~ In LF (snd (decode (fst (decode decoder_init
                               (List.concat [bytes ("data: 1" ++ NL)])))
                       (bytes "data: 2")))
  /\ exists g',
       for_await 2 (constructor ([bytes ("data: 1" ++ NL)] ++ [bytes "data: 2"])
                                EndOfData)
       = Some ([Frame (Sample.JNumber 1)], g').
Proof.
  assert (H : ~ In LF (snd (decode (fst (decode decoder_init
                                           (List.concat [bytes ("data: 1" ++ NL)])))
                                   (bytes "data: 2")))).
  { apply complete_lines_nil_iff. reflexivity. }
  split; [exact H |].
  apply (unterminated_last_line_is_not_yielded
           [bytes ("data: 1" ++ NL)] (bytes "data: 2") EndOfData 2 H).
  vm_compute. lia.
Defined.

Lemma yielded_values_come_from_complete_lines_witness :
  exists ys g',
    for_await 4 (constructor Sample.two_frames_and_a_half ReadFails)
    = Some (ys, g')
    /\ forall y, In y ys ->
         (exists raw v,
             y = Frame v
             /\ In raw (complete_lines
                          (text_of (List.concat Sample.two_frames_and_a_half)))
             /\ startsWith (trim raw) (str "data:") = true
             /\ isEmpty (trim (slice (trim raw) 5)) = false
             /\ JSON_parse (trim (slice (trim raw) 5)) = Some v)
         \/ (y = Failure {| error := "network_error" |} /\ ReadFails = ReadFails).
Proof.
  apply (yielded_values_come_from_complete_lines
           Sample.two_frames_and_a_half ReadFails 4).
  vm_compute. lia.
Defined.

Lemma padding_around_a_line_is_ignored_witness :
  allWhiteSpace [32%N; 9%N] = true
  /\ allWhiteSpace [13%N] = true
  /\ frame ([32%N; 9%N] ++ str "data: 1" ++ [13%N]) = frame (str "data: 1").
Proof.
  split; [reflexivity |]. split; [reflexivity |].
  apply padding_around_a_line_is_ignored; reflexivity.
Defined.

Lemma next_reads_no_chunk_ahead_witness :
  frames (complete_lines
            (snd (decode decoder_init (bytes ("data: 1" ++ NL ++ "data: 2" ++ NL)))))
  = [Frame (Sample.JNumber 1); Frame (Sample.JNumber 2)]
  /\ snd (next (constructor
                  (bytes ("data: 1" ++ NL ++ "data: 2" ++ NL)
                   :: [bytes ("data: 3" ++ NL)]) EndOfData))
     = Value (Frame (Sample.JNumber 1))
  /\ chunks (_reader (fst (next (constructor
                                   (bytes ("data: 1" ++ NL ++ "data: 2" ++ NL)
                                    :: [bytes ("data: 3" ++ NL)]) EndOfData))))
     = [bytes ("data: 3" ++ NL)].
Proof.
  assert (H : frames (complete_lines
                        (snd (decode decoder_init
                                (bytes ("data: 1" ++ NL ++ "data: 2" ++ NL)))))
              = [Frame (Sample.JNumber 1); Frame (Sample.JNumber 2)])
    by reflexivity.
  split; [exact H |].
  apply (next_reads_no_chunk_ahead _ [bytes ("data: 3" ++ NL)] EndOfData _ _ H).
Defined.

End StreamParserMore.


(* ===================================================================== *)
(** ** More properties of the client class *)
(* ===================================================================== *)

Module IGPTMore.

Import Js IGPT IGPTService.

(** *** Slashes *)

Lemma eqb_eq a b : eqb a b = true <-> a = b.
Proof.
  revert b. induction a as [| x a IH]; intros [| y b]; simpl;
    try (split; [discriminate | discriminate]).
  - split; reflexivity.
  - rewrite andb_true_iff, N.eqb_eq, IH. split.
    + intros [-> ->]. reflexivity.
    + intros H. injection H as -> ->. auto.
Qed.

Lemma strip_leading_repeat n s :
  strip_leading_slashes (repeat SLASH n ++ s) = strip_leading_slashes s.
Proof. induction n as [| n IH]; [reflexivity | exact IH]. Qed.

Lemma strip_trailing_repeat n s :
  strip_trailing_slashes (s ++ repeat SLASH n) = strip_trailing_slashes s.
Proof.
  unfold strip_trailing_slashes.
  rewrite rev_app_distr, rev_repeat, strip_leading_repeat. reflexivity.
Qed.

Lemma strip_leading_shape s :
  exists j,
    s = repeat SLASH j ++ strip_leading_slashes s
    /\ hd 0%N (strip_leading_slashes s) <> SLASH.
Proof.
  induction s as [| c s (j & Hs & Hhd)].
  - exists 0%nat. split; [reflexivity | discriminate].
  - simpl. destruct (N.eqb_spec c SLASH) as [-> | Hc].
    + exists (S j). split; [simpl; f_equal; exact Hs | exact Hhd].
    + exists 0%nat. split; [reflexivity | exact Hc].
Qed.

Lemma strip_trailing_shape s :
  exists i,
    s = strip_trailing_slashes s ++ repeat SLASH i
    /\ last (strip_trailing_slashes s) 0%N <> SLASH.
Proof.
  unfold strip_trailing_slashes.
  destruct (strip_leading_shape (rev s)) as (i & Hs & Hhd).
  exists i. split.
  - rewrite <- (rev_involutive s) at 1. rewrite Hs at 1.
    rewrite rev_app_distr, rev_repeat. reflexivity.
  - destruct (strip_leading_slashes (rev s)) as [| c r]; [discriminate |].
    simpl. rewrite last_last. exact Hhd.
Qed.


(** X13. [_buildUrl] joins the base and the path with exactly one slash:
    slashes at the end of the base and at the start of the path are
    dropped, however many there are, and nothing else is changed. *)
Theorem buildUrl_joins_with_one_slash base path :
  (forall n m,
      _buildUrl (base ++ repeat SLASH n) (repeat SLASH m ++ path)
      = _buildUrl base path)
  /\ exists b p i j,
       _buildUrl base path = b ++ [SLASH] ++ p
       /\ base = b ++ repeat SLASH i
       /\ path = repeat SLASH j ++ p
       /\ last b 0%N <> SLASH
       /\ hd 0%N p <> SLASH.
Proof.
  split.
  - intros n m. unfold _buildUrl.
    rewrite strip_trailing_repeat, strip_leading_repeat. reflexivity.
  - destruct (strip_trailing_shape base) as (i & Hb & Hlast).
    destruct (strip_leading_shape path) as (j & Hp & Hhd).
    exists (strip_trailing_slashes base), (strip_leading_slashes path), i, j.
    repeat split; assumption.
Qed.

(** X14. A service answers a string key with a method exactly when the
    key is not [then] and the allow-list is empty or holds the key; the
    method posts to [endpoint/key]. Any other key gives [undefined], so no
    request can be made through it. *)
Theorem service_answers_only_allowed_methods endpoint allowedMethods m :
  (m <> str "then" /\ (allowedMethods = [] \/ In m allowedMethods) ->
   _createService endpoint allowedMethods (KeyString m)
   = Some (endpoint ++ [SLASH] ++ m))
  /\ (m = str "then" \/ (allowedMethods <> [] /\ ~ In m allowedMethods) ->
      _createService endpoint allowedMethods (KeyString m) = None).
Proof.
  unfold _createService, has.
  destruct (eqb m (str "then")) eqn:Hthen.
  - apply eqb_eq in Hthen. split.
    + intros [Hne _]. contradiction.
    + reflexivity.
  - assert (Hne : m <> str "then")
      by (intros H; apply eqb_eq in H; congruence).
    destruct (existsb (eqb m) allowedMethods) eqn:Hhas.
    + rewrite andb_false_r. split; [reflexivity |].
      intros [H | [_ Hnot]]; [contradiction |].
      apply existsb_exists in Hhas. destruct Hhas as (x & Hin & Hx).
      apply eqb_eq in Hx. subst x. contradiction.
    + assert (Hnot : ~ In m allowedMethods).
      { intros Hin.
        assert (H : existsb (eqb m) allowedMethods = true).
        { apply existsb_exists. exists m. split; [exact Hin |].
          apply eqb_eq. reflexivity. }
        congruence. }
      destruct allowedMethods as [| a l]; simpl.
      * split; [reflexivity |].
        intros [H | [H _]]; contradiction.
      * split; [| reflexivity].
        intros [_ [H | H]]; [discriminate | contradiction].
Qed.


(** *** Calls *)

Section Calls.

Context {P : StreamParser.Platform}.

Variable getReader :
  HttpClient.Response -> option (list (list byte) * StreamParser.Ending).

(** X16. A client made by the constructor arms a deadline of 60 000 ms
    for each attempt of a non-streaming call and of 600 000 ms for each
    attempt of a streaming call, whatever the login options. *)
Theorem calls_arm_their_own_deadline options body world :
  exists res tr,
    _execute (constructor options) body world = Some (res, tr)
    /\ forall ms,
         In (HttpClient.SetTimeout ms) tr ->
         ms = if stream body then 600000 else 60000.
Proof.
  unfold _execute.
  destruct (HttpClientFacts.request_returns
              (_http (constructor options))
              {| HttpClient.timeout :=
                   Some (if stream body then _streamTimeout (constructor options)
                         else _timeout (constructor options)) |}
              world) as (res & tr & E).
  exists res, tr. split; [exact E |].
  intros ms Hin.
  rewrite (HttpClientMore.loop_deadlines _ _ _ _ _ _ _ E ms Hin).
  destruct (stream body); reflexivity.
Qed.

(** X17. A streaming call goes through the executor like any other call
    and then: an error value of the executor is returned as it is and no
    decoder is made; a response, whatever its status, is handed to a new
    decoder, whose iteration yields the frames of the body of that
    response; without a body, or when the executor returns [undefined],
    the call throws. *)
Theorem streaming_call_hands_the_body_to_a_decoder this body world :
  stream body = true ->
  exists res tr,
    _execute this body world = Some (res, tr)
    /\ match res with
       | HttpClient.RetError e =>
           service_method getReader this body world
           = Some (ResolvesError e, List.map Http tr)
       | HttpClient.RetResponse response =>
           match getReader response with
           | Some (chunks, e) =>
               exists parser,
                 service_method getReader this body world
                 = Some (ResolvesStream parser, List.map Http tr)
                 /\ forall fuel,
                      (List.length
                         (StreamParser.values_of (List.concat chunks) e)
                       < fuel)%nat ->
                      exists g',
                        StreamParser.for_await fuel parser
                        = Some (StreamParser.values_of (List.concat chunks) e, g')
           | None =>
               service_method getReader this body world
               = Some (Rejects, List.map Http tr)
           end
       | HttpClient.RetUndefined =>
           service_method getReader this body world
           = Some (Rejects, List.map Http tr)
       end.
Proof.
  intros Hstream. unfold service_method. rewrite Hstream.
  assert (Hret : exists res tr, _execute this body world = Some (res, tr))
    by (unfold _execute; apply HttpClientFacts.request_returns).
  destruct Hret as (res & tr & E).
  exists res, tr. rewrite E. split; [reflexivity |].
  destruct res as [response | e |]; [| | reflexivity].
  - destruct (getReader response) as [[chunks e] |]; [| reflexivity].
    exists (StreamParser.constructor chunks e). split; [reflexivity |].
    intros fuel Hfuel.
    destruct (StreamParserFacts.for_await_constructor chunks e fuel Hfuel)
      as (g' & Eg & _).
    exists g'. exact Eg.
  - unfold _execute in E. apply HttpClientFacts.loop_error in E.
    destruct E as [-> | [-> | ->]]; reflexivity.
Qed.

(** X18. A negative [retries] option is kept by the constructor, and then
    no request is ever sent: a non-streaming call resolves to
    [{ error: "invalid_json_response" }] and a streaming call throws. *)
Theorem negative_retries_send_nothing options n body world :
  retries options = Some n ->
  n < 0 ->
  service_method getReader (constructor options) body world
  = if stream body
    then Some (Rejects, [])
    else Some (ResolvesJson (Failed {| error := "invalid_json_response" |}),
               [ResJson]).
Proof.
  intros Hopt Hn.
  assert (Hretries : HttpClient._retries (_http (constructor options)) = n).
  { simpl. rewrite Hopt. simpl.
    destruct (Z.eqb_spec n 0); [lia | reflexivity]. }
  assert (Hrun : forall o,
             HttpClient.request (_http (constructor options)) o world
             = Some (HttpClient.RetUndefined, [])).
  { intros o. unfold HttpClient.request.
    apply HttpClientFacts.loop_past_end. rewrite Hretries. lia. }
  unfold service_method, _postJson, _execute.
  rewrite !Hrun. destruct (stream body); reflexivity.
Qed.


(** X20. The connection of a streaming call is retried like any other
    request: when a response whose status is neither 5xx nor 429 comes at
    attempt [k <= _retries] after [k] transient outcomes, the call has made
    exactly the attempts [0 .. k] and resolves to a decoder over the body
    of that response. *)
Theorem streaming_connection_is_retried this body world k response chunks e :
  stream body = true ->
  0 <= k <= HttpClient._retries (_http this) ->
  (forall j, 0 <= j < k -> HttpClientTrace.transient (world j) = true) ->
  world k = HttpClient.Fulfilled response ->
  HttpClient.isRetryableStatus response = false ->
  getReader response = Some (chunks, e) ->
  exists tr,
    service_method getReader this body world
    = Some (ResolvesStream (StreamParser.constructor chunks e), List.map Http tr)
    /\ HttpClient.attempts tr = List.map Z.of_nat (seq 0 (S (Z.to_nat k))).
Proof.
  intros Hstream Hk Htrans Hw Hr Hbody.
  destruct (HttpClientMore.loop_first_return
              (_http this)
              {| HttpClient.timeout :=
                   Some (if stream body then _streamTimeout this
                         else _timeout this) |}
              world (Z.to_nat k)
              (Z.to_nat (HttpClient._retries (_http this) + 1)) 0
              (HttpClient.RetResponse response))
    as (tr & E & Hatt).
  - lia.
  - intros j Hj. apply Htrans. lia.
  - replace (0 + Z.of_nat (Z.to_nat k)) with k by lia.
    unfold HttpClient.try_catch. rewrite Hw, Hr. reflexivity.
  - lia.
  - exists tr. split.
    + unfold service_method, _execute, HttpClient.request.
      rewrite Hstream in *. rewrite E, Hbody. reflexivity.
    + unfold HttpClient.attempts, HttpClient.waits. rewrite Hatt.
      apply map_ext. intros j. lia.
Qed.

End Calls.

(** *** The theorems at concrete inputs *)

#[local] Existing Instance Sample.platform.


Lemma streaming_call_hands_the_body_to_a_decoder_witness :
  exists parser tr,
    service_method (fun _ => Some (Sample.two_frames_and_a_half, StreamParser.EndOfData))
      (constructor {| retries := None; backoffBase := None; backoffFactor := None |})
      {| stream := true |} Sample.ok_a1
    = Some (ResolvesStream parser, tr)
    /\ exists g',
         StreamParser.for_await 3 parser
         = Some ([StreamParser.Frame (Sample.JNumber 1);
                  StreamParser.Frame (Sample.JNumber 2)], g').
Proof.
  destruct (streaming_call_hands_the_body_to_a_decoder
              (fun _ => Some (Sample.two_frames_and_a_half, StreamParser.EndOfData))
              (constructor {| retries := None; backoffBase := None;
                              backoffFactor := None |})
              {| stream := true |} Sample.ok_a1 eq_refl)
    as (res & tr & E & H).
  vm_compute in E. injection E as <- <-.
  destruct H as (parser & Hcall & Hrun).
  exists parser. eexists. split; [exact Hcall |].
  apply (Hrun 3%nat). vm_compute. lia.
Defined.

Lemma negative_retries_send_nothing_witness :
  -1 < 0
  /\ service_method (fun _ => None)
       (constructor {| retries := Some (-1); backoffBase := None;
                       backoffFactor := None |})
       {| stream := false |} Sample.ok_a1
     = Some (ResolvesJson (Failed {| error := "invalid_json_response" |}),
             [ResJson]).
Proof.
  assert (H : -1 < 0) by lia.
  split; [exact H |].
  exact (negative_retries_send_nothing (fun _ => None)
           {| retries := Some (-1); backoffBase := None; backoffFactor := None |}
           (-1) {| stream := false |} Sample.ok_a1 eq_refl H).
Defined.


Lemma streaming_connection_is_retried_witness :
  exists tr,
    service_method (fun _ => Some (Sample.two_frames_and_a_half, StreamParser.EndOfData))
      (constructor {| retries := None; backoffBase := None; backoffFactor := None |})
      {| stream := true |}
      (fun k => if k =? 0 then Sample.respond 503 "busy" else Sample.ok_a1 k)
    = Some (ResolvesStream
              (StreamParser.constructor Sample.two_frames_and_a_half
                                        StreamParser.EndOfData),
            List.map Http tr)
    /\ HttpClient.attempts tr = [0; 1].
Proof.
  destruct (streaming_connection_is_retried
              (fun _ => Some (Sample.two_frames_and_a_half, StreamParser.EndOfData))
              (constructor {| retries := None; backoffBase := None;
                              backoffFactor := None |})
              {| stream := true |}
              (fun k => if k =? 0 then Sample.respond 503 "busy"
                        else Sample.ok_a1 k)
              1 {| HttpClient.status := 200;
                   HttpClient.body :=
                     HttpClient.BodyText (str ("{" ++ DQ ++ "a" ++ DQ ++ ":1}")) |}
              Sample.two_frames_and_a_half StreamParser.EndOfData)
    as (tr & E & Hatt).
  - reflexivity.
  - simpl. lia.
  - intros j Hj. assert (j = 0) as -> by lia. reflexivity.
  - reflexivity.
  - reflexivity.
  - reflexivity.
  - exists tr. split; [exact E | exact Hatt].
Defined.

End IGPTMore.


(* ===================================================================== *)
(** ** The caller's signal *)
(* ===================================================================== *)

Module HttpClientSignalFacts.

Import HttpClient HttpClientSignals.

(** [request] reads the transport only at the attempts it makes, one
    value each: two transports that settle alike give the same run. *)
Lemma loop_ext this options world1 world2 :
  (forall k, world1 k = world2 k) ->
  forall fuel attempt,
    loop this options world1 fuel attempt = loop this options world2 fuel attempt.
Proof.
  intros Hsame. induction fuel as [| fuel IH]; intros attempt; [reflexivity |].
  simpl. unfold try_catch. rewrite (Hsame attempt), (IH (attempt + 1)).
  reflexivity.
Qed.

(** The init the code builds never carries the caller's signal. *)
Lemma world_of_without_caller_abort env fetchOptions k :
  world_of env fetchOptions k
  = world_of (without_caller_abort env) fetchOptions k.
Proof. reflexivity. Qed.

(** Had fetch been given the caller's signal, its abort would reject the
    fetch with an AbortError that the attempt did not raise, and CASE A of
    the [catch] would return [{ error: "request_aborted" }]. *)
Example case_A_with_the_caller_signal :
  fetch caller_aborts_attempt_0 0 caller_signal = ForeignAbort
  /\ try_catch Sample.policy
       (fun k => fetch caller_aborts_attempt_0 k caller_signal) 0
     = Return (RetError {| error := "request_aborted" |}).
Proof. split; reflexivity. Qed.

(** C2 (the code departs from the statement). The signal handed to fetch
    is always the attempt's own, so a cancellation by the caller is never
    seen: every run is the run of the same environment in which the caller
    does not abort. In particular, when the caller passes its signal and
    aborts during attempt 0 while the server answers 200, [request] returns
    that response and not [{ error: "request_aborted" }]. *)
Theorem caller_abort_does_not_stop_the_request :
  (forall this options fetchOptions env,
      request_with this options fetchOptions env
      = request_with this options fetchOptions (without_caller_abort env))
  /\ aborted caller_aborts_attempt_0 0 CallerSignal = true
  /\ request_with Sample.policy Sample.no_override caller_signal
       caller_aborts_attempt_0
     = Some (RetResponse ok_200, [SetTimeout 60000; Fetch 0; ClearTimeout]).
Proof.
  split; [| split; reflexivity].
  intros this options fetchOptions env. unfold request_with, request.
  apply loop_ext. intros k. apply world_of_without_caller_abort.
Qed.

End HttpClientSignalFacts.

